(** * CPU scheduling simulator (main.go): FCFS, SJF, SJF-Priority, Round-Robin

    A shallow embedding of the four schedulers of [main.go] and the
    properties of their schedule rows, Gantt sequences and process table.

    Conventions of the embedding.
    - Go's [int64] is [Z] with the two's-complement wrap-around written out
      ([Int64.wrap]); Go's [int] is taken to be 64 bits wide, as on every
      64-bit target, so [int(x)] and [int64(x)] are the identity.
    - A slice is a [list]; [s[i]] is the checked lookup [s !! i] and a
      failed lookup is Go's "index out of range" panic, modelled by [None]
      in the option monad.  Indices held in [int] variables (which the code
      seeds with [-1]) go through [lookupZ] / [storeZ].
    - A schedule row is the seven integers that the code prints with
      [fmt.Sprint]; an entry of [schedule] that was never assigned is [None].
    - The [float64] accumulators (totalWait, totalTurnaround,
      lastCompletion) feed only the printed averages; they take no part in
      control flow, rows or Gantt slices and are left out.
    - Each scheduler is embedded up to the end of its loop: the state it
      yields is the one that [outputTitle], [outputGantt] and
      [outputSchedule] are then called with.  These three calls are not
      part of [FCFS.FCFSSchedule], [SJF.run] and [RR.RRSchedule];
      [outputGantt], which can panic, is embedded on its own in [Output].
      That a scheduler "returns" or "never panics" is said below of this
      part of it. *)

From stdpp Require Import base tactics option list numbers strings.

Open Scope Z_scope.

(** ** 64-bit integers *)

Module Int64.

Definition min_signed : Z := - 2 ^ 63.
Definition max_signed : Z := 2 ^ 63 - 1.

(** The representative of [z] modulo [2^64] in the signed range. *)
Definition wrap (z : Z) : Z := (z + 2 ^ 63) mod 2 ^ 64 - 2 ^ 63.

Definition add (a b : Z) : Z := wrap (a + b).
Definition sub (a b : Z) : Z := wrap (a - b).

Definition in_range (z : Z) : Prop := min_signed <= z <= max_signed.

End Int64.

(** ** Data model (main.go, lines 61-73) *)

Record Process := mkProcess {
  ProcessID : Z;
  ArrivalTime : Z;
  BurstDuration : Z;
  Priority : Z
}.

Record TimeSlice := mkTimeSlice {
  PID : Z;
  Start : Z;
  Stop : Z
}.

(** One entry of [schedule]: ID, Priority, Burst, Arrival, Wait, Turnaround,
    Exit, in the order of the printed table header. *)
Record Row := mkRow {
  rowID : Z;
  rowPriority : Z;
  rowBurst : Z;
  rowArrival : Z;
  rowWait : Z;
  rowTurnaround : Z;
  rowExit : Z
}.

(** ** Slices and loops *)

(** [s[i]] for an index held in an [int]. *)
Definition lookupZ {A} (l : list A) (i : Z) : option A :=
  if decide (0 <= i) then l !! Z.to_nat i else None.

(** [s[i] = x] for a [range] index. *)
Definition store {A} (l : list A) (i : nat) (x : A) : option (list A) :=
  if decide (i < length l)%nat then Some (<[i := x]> l) else None.

(** [s[i] = x] for an index held in an [int]. *)
Definition storeZ {A} (l : list A) (i : Z) (x : A) : option (list A) :=
  if decide (0 <= i) then store l (Z.to_nat i) x else None.

(** [for i := range s { body }] with [n] indices left, the next one being
    [i]. *)
Fixpoint for_range {St : Type} (body : nat -> St -> option St)
    (i n : nat) (s : St) : option St :=
  match n with
  | O => Some s
  | S n' => s' ← body i s; for_range body (S i) n' s'
  end.

(** How a loop run with a fuel bound ended. *)
Inductive outcome := Finished | Panicked | OutOfFuel.

(** The rows that were assigned, in table order. *)
Definition produced (schedule : list (option Row)) : list Row :=
  omap id schedule.

(** ** First-come, first-serve (main.go, lines 81-131) *)

Module FCFS.

Record state := mkState {
  processes : list Process;
  serviceTime : Z;
  waitingTime : Z;
  schedule : list (option Row);
  gantt : list TimeSlice
}.

Definition init (procs : list Process) : state :=
  {| processes := procs;
     serviceTime := 0;
     waitingTime := 0;
     schedule := replicate (length procs) None;
     gantt := [] |}.

(** Body of the loop of lines 91-121. *)
Definition body (i : nat) (st : state) : option state :=
  p ← processes st !! i;
  let waitingTime' :=
    if decide (ArrivalTime p > 0)
    then Int64.sub (serviceTime st) (ArrivalTime p)
    else waitingTime st in
  let start := Int64.add waitingTime' (ArrivalTime p) in
  let turnaround := Int64.add (BurstDuration p) waitingTime' in
  let completion :=
    Int64.add (Int64.add (BurstDuration p) (ArrivalTime p)) waitingTime' in
  schedule' ← store (schedule st) i
    (Some (mkRow (ProcessID p) (Priority p) (BurstDuration p)
             (ArrivalTime p) waitingTime' turnaround completion));
  let serviceTime' := Int64.add (serviceTime st) (BurstDuration p) in
  Some {| processes := processes st;
          serviceTime := serviceTime';
          waitingTime := waitingTime';
          schedule := schedule';
          gantt := gantt st ++ [mkTimeSlice (ProcessID p) start serviceTime'] |}.

(** [FCFSSchedule] up to the end of its loop (line 121): the state that
    the output calls of lines 128-130 receive. *)
Definition FCFSSchedule (procs : list Process) : option state :=
  for_range body 0 (length procs) (init procs).

End FCFS.

(** ** Shortest-job-first (main.go, lines 134-222)

    [SJFSchedule] and [SJFPrioritySchedule] are the same text but for the
    scan that picks [ShortestJobIndex]; the tick loop is written once here,
    over the scan [select], and instantiated twice. *)

Module SJF.

Record state := mkState {
  processes : list Process;
  RemainingBurst : list Z;
  tick : Z;
  totalBurstTime : Z;
  lastGanttIndex : Z;
  lastGanttStartTime : Z;
  schedule : list (option Row);
  gantt : list TimeSlice
}.

(** The variables as declared in lines 135-146. *)
Definition start (procs : list Process) : state :=
  {| processes := procs;
     RemainingBurst := replicate (length procs) 0;
     tick := 0;
     totalBurstTime := 0;
     lastGanttIndex := -1;
     lastGanttStartTime := 0;
     schedule := replicate (length procs) None;
     gantt := [] |}.

(** Body of the loop of lines 148-151. *)
Definition init_body (i : nat) (st : state) : option state :=
  p ← processes st !! i;
  rem ← store (RemainingBurst st) i (BurstDuration p);
  Some {| processes := processes st;
          RemainingBurst := rem;
          tick := tick st;
          totalBurstTime := Int64.add (totalBurstTime st) (BurstDuration p);
          lastGanttIndex := lastGanttIndex st;
          lastGanttStartTime := lastGanttStartTime st;
          schedule := schedule st;
          gantt := gantt st |}.

Definition init (procs : list Process) : option state :=
  for_range init_body 0 (length procs) (start procs).

(** "Take care of gantt table", lines 166-182, for the index [sji] the scan
    returned. *)
Definition close_slice (sji : Z) (st : state) : option state :=
  if decide (lastGanttIndex st <> sji \/ tick st = Int64.sub (totalBurstTime st) 1)
  then
    g ← (if decide (tick st = Int64.sub (totalBurstTime st) 1) then
           p ← lookupZ (processes st) (lastGanttIndex st);
           Some (gantt st ++ [mkTimeSlice (ProcessID p) (lastGanttStartTime st)
                                (Int64.add (tick st) 1)])
         else if decide (lastGanttIndex st <> -1) then
           p ← lookupZ (processes st) (lastGanttIndex st);
           Some (gantt st ++ [mkTimeSlice (ProcessID p) (lastGanttStartTime st)
                                (tick st)])
         else Some (gantt st));
    Some {| processes := processes st;
            RemainingBurst := RemainingBurst st;
            tick := tick st;
            totalBurstTime := totalBurstTime st;
            lastGanttIndex := sji;
            lastGanttStartTime := tick st;
            schedule := schedule st;
            gantt := g |}
  else Some st.

(** The row of lines 199-207, written when the process finishes at [tick]
    (already increased). *)
Definition finish_row (p : Process) (tick : Z) : Row :=
  {| rowID := ProcessID p;
     rowPriority := Priority p;
     rowBurst := BurstDuration p;
     rowArrival := ArrivalTime p;
     rowWait := Int64.sub (Int64.sub tick (ArrivalTime p)) (BurstDuration p);
     rowTurnaround := Int64.sub tick (ArrivalTime p);
     rowExit := tick |}.

(** "Increase tick" and the bookkeeping after it, lines 185-211. *)
Definition account (sji : Z) (st : state) : option state :=
  let tick' := Int64.add (tick st) 1 in
  if decide (sji = -1) then
    Some {| processes := processes st;
            RemainingBurst := RemainingBurst st;
            tick := tick';
            totalBurstTime := Int64.add (totalBurstTime st) 1;
            lastGanttIndex := lastGanttIndex st;
            lastGanttStartTime := lastGanttStartTime st;
            schedule := schedule st;
            gantt := gantt st |}
  else
    r ← lookupZ (RemainingBurst st) sji;
    rem ← storeZ (RemainingBurst st) sji (Int64.sub r 1);
    schedule' ← (if decide (Int64.sub r 1 = 0) then
                   p ← lookupZ (processes st) sji;
                   storeZ (schedule st) sji (Some (finish_row p tick'))
                 else Some (schedule st));
    Some {| processes := processes st;
            RemainingBurst := rem;
            tick := tick';
            totalBurstTime := totalBurstTime st;
            lastGanttIndex := lastGanttIndex st;
            lastGanttStartTime := lastGanttStartTime st;
            schedule := schedule';
            gantt := gantt st |}.

Section TickLoop.

(** The scan of the process table that yields [ShortestJobIndex]. *)
Variable select : state -> option Z.

(** One iteration of [for tick := 0; tick < totalBurstTime; { ... }]. *)
Definition body (st : state) : option state :=
  sji ← select st;
  st1 ← close_slice sji st;
  account sji st1.

Fixpoint loop (fuel : nat) (st : state) : outcome * state :=
  if decide (tick st < totalBurstTime st) then
    match fuel with
    | O => (OutOfFuel, st)
    | S fuel' =>
        match body st with
        | None => (Panicked, st)
        | Some st' => loop fuel' st'
        end
    end
  else (Finished, st).

(** The scheduler up to the end of its tick loop (line 212, respectively
    310), with at most [fuel] iterations: the state that the output calls
    of lines 219-221 (317-319) receive when the loop finishes. *)
Definition run (fuel : nat) (procs : list Process) : outcome * state :=
  match init procs with
  | None => (Panicked, start procs)
  | Some st => loop fuel st
  end.

End TickLoop.

(** The scan of lines 154-163. *)
Record candidate := mkCandidate {
  ShortestJobIndex : Z;
  ShortestJobBurst : Z
}.

Definition scan_body (st : state) (i : nat) (c : candidate) : option candidate :=
  r ← RemainingBurst st !! i;
  if decide (r > 0) then
    p ← processes st !! i;
    if decide (ArrivalTime p <= tick st /\ r <= ShortestJobBurst c)
    then Some {| ShortestJobIndex := Z.of_nat i; ShortestJobBurst := r |}
    else Some c
  else Some c.

Definition scan (st : state) : option candidate :=
  for_range (scan_body st) 0 (length (processes st))
    {| ShortestJobIndex := -1; ShortestJobBurst := 100000 |}.

Definition select (st : state) : option Z := ShortestJobIndex <$> scan st.

Definition SJFSchedule (fuel : nat) (procs : list Process) : outcome * state :=
  run select fuel procs.

(** A process may run at this tick: it has work left and has arrived. *)
Definition eligible (st : state) (i : nat) : Prop :=
  exists r p, RemainingBurst st !! i = Some r /\ processes st !! i = Some p
              /\ r > 0 /\ ArrivalTime p <= tick st.

End SJF.

(** ** Shortest-job-first with priorities (main.go, lines 225-320) *)

Module SJFPriority.

(** The scan of lines 245-263. *)
Record candidate := mkCandidate {
  ShortestJobPriority : Z;
  ShortestJobIndex : Z;
  ShortestJobBurst : Z
}.

Definition scan_body (st : SJF.state) (i : nat) (c : candidate) : option candidate :=
  r ← SJF.RemainingBurst st !! i;
  if decide (r > 0) then
    p ← SJF.processes st !! i;
    if decide (ArrivalTime p <= SJF.tick st) then
      if decide (Priority p <= ShortestJobPriority c /\ Priority p < ShortestJobPriority c)
      then Some {| ShortestJobPriority := Priority p;
                   ShortestJobIndex := Z.of_nat i;
                   ShortestJobBurst := BurstDuration p |}
      else if decide (r < ShortestJobBurst c)
      then Some {| ShortestJobPriority := Priority p;
                   ShortestJobIndex := Z.of_nat i;
                   ShortestJobBurst := r |}
      else Some c
    else Some c
  else Some c.

Definition scan (st : SJF.state) : option candidate :=
  for_range (scan_body st) 0 (length (SJF.processes st))
    {| ShortestJobPriority := 100000; ShortestJobIndex := -1; ShortestJobBurst := 100000 |}.

Definition select (st : SJF.state) : option Z := ShortestJobIndex <$> scan st.

Definition SJFPrioritySchedule (fuel : nat) (procs : list Process)
  : outcome * SJF.state :=
  SJF.run select fuel procs.

End SJFPriority.

(** ** Round-robin (main.go, lines 324-444) *)

Module RR.

Definition QuantumTime : Z := 3.

Record state := mkState {
  processes : list Process;
  serviceTime : Z;
  waitingTime : Z;
  schedule : list (option Row);
  gantt : list TimeSlice;
  OGBurst : list Z
}.

Definition init (procs : list Process) : state :=
  {| processes := procs;
     serviceTime := 0;
     waitingTime := 0;
     schedule := replicate (length procs) None;
     gantt := [];
     OGBurst := replicate (length procs) 0 |}.

(** The two branches of the pass (lines 347-384 and 389-427) are the same
    text with [QuantumTime], respectively [processes[i].BurstDuration], as
    the amount of [work] served; [serve] is that text. *)
Definition serve (i : nat) (p : Process) (work : Z) (st : state) : option state :=
  let waitingTime1 := Int64.sub (serviceTime st) (ArrivalTime p) in
  og ← OGBurst st !! i;
  OGBurst' ← (if decide (og = 0) then store (OGBurst st) i (BurstDuration p)
              else Some (OGBurst st));
  og' ← OGBurst' !! i;
  let start := Int64.add waitingTime1 (ArrivalTime p) in
  let turnaround := Int64.add work waitingTime1 in
  let completion := Int64.add (Int64.add work (ArrivalTime p)) waitingTime1 in
  let waitingTime2 := Int64.sub turnaround og' in
  schedule' ← store (schedule st) i
    (Some (mkRow (ProcessID p) (Priority p) og' (ArrivalTime p)
             waitingTime2 turnaround completion));
  let serviceTime' := Int64.add (serviceTime st) work in
  processes' ← store (processes st) i
    (mkProcess (ProcessID p) (ArrivalTime p)
       (Int64.sub (BurstDuration p) work) (Priority p));
  Some {| processes := processes';
          serviceTime := serviceTime';
          waitingTime := waitingTime2;
          schedule := schedule';
          gantt := gantt st ++ [mkTimeSlice (ProcessID p) start serviceTime'];
          OGBurst := OGBurst' |}.

(** Body of [for i := range processes], lines 344-430. *)
Definition visit (i : nat) (st : state) : option state :=
  p ← processes st !! i;
  if decide (BurstDuration p >= QuantumTime) then
    serve i p QuantumTime st
  else if decide (BurstDuration p < QuantumTime /\ BurstDuration p > 0) then
    serve i p (BurstDuration p) st
  else Some st.

Definition pass (st : state) : option state :=
  for_range visit 0 (length (processes st)) st.

(** [n] iterations of the outer loop. *)
Fixpoint passes (n : nat) (st : state) : option state :=
  match n with
  | O => Some st
  | S n' => st' ← pass st; passes n' st'
  end.

(** [for tick < 1000 { ...; tick++ }] from [tick := 0]: a thousand passes.
    This is [RRSchedule] up to the end of that loop (line 433): the state
    that the output calls of lines 440-442 receive. *)
Definition RRSchedule (procs : list Process) : option state :=
  passes 1000 (init procs).

End RR.

(** ** Loading the process table (main.go, lines 493-520)

    The CSV reader and the integer parser are library code; the loader is
    written over them.  [ReadAll r] stands for
    [csv.NewReader(r).ReadAll()] and [ParseInt s] for
    [strconv.ParseInt(s, 10, 64)], each with [None] for its error. *)

Module Loader.

(** How a call ends: with a value, with the error of the CSV reader, by
    [os.Exit(1)], or by an index-out-of-range panic. *)
Inductive result (A : Type) : Type :=
  | Loaded (a : A)
  | ReadError
  | Exit1
  | IndexPanic.

Arguments Loaded {A} a.
Arguments ReadError {A}.
Arguments Exit1 {A}.
Arguments IndexPanic {A}.

Definition bind {A B} (m : result A) (f : A -> result B) : result B :=
  match m with
  | Loaded a => f a
  | ReadError => ReadError
  | Exit1 => Exit1
  | IndexPanic => IndexPanic
  end.

Section Load.

Variable ParseInt : string -> option Z.
Variable Reader : Type.
Variable ReadAll : Reader -> option (list (list string)).

(** Lines 512-520. *)
Definition mustStrToInt (s : string) : result Z :=
  match ParseInt s with
  | Some i => Loaded i
  | None => Exit1
  end.

(** [rows[i][k]]. *)
Definition field (row : list string) (k : nat) : result string :=
  match row !! k with
  | Some s => Loaded s
  | None => IndexPanic
  end.

(** Body of the loop of lines 500-507 for one record; the record of
    [processes] it fills starts as the zero value. *)
Definition load_row (row : list string) : result Process :=
  bind (bind (field row 0) mustStrToInt) (fun id =>
  bind (bind (field row 1) mustStrToInt) (fun burst =>
  bind (bind (field row 2) mustStrToInt) (fun arrival =>
  bind (if decide (length row = 4%nat)
        then bind (field row 3) mustStrToInt
        else Loaded 0) (fun priority =>
  Loaded (mkProcess id arrival burst priority))))).

Fixpoint load_rows (rows : list (list string)) : result (list Process) :=
  match rows with
  | [] => Loaded []
  | row :: rows' =>
      bind (load_row row) (fun p =>
      bind (load_rows rows') (fun ps => Loaded (p :: ps)))
  end.

Definition loadProcesses (r : Reader) : result (list Process) :=
  match ReadAll r with
  | None => ReadError
  | Some rows => load_rows rows
  end.

End Load.

End Loader.

(** ** Printing the Gantt sequence (main.go, lines 457-473)

    [Sprint] stands for [fmt.Sprint] on an [int64].  The function returns
    what it writes; [None] is a panic (what was written before it is not
    kept). *)

Module Output.

Definition newline : string := String (Ascii.ascii_of_nat 10) EmptyString.
Definition tab : string := String (Ascii.ascii_of_nat 9) EmptyString.

(** [strings.Repeat(s, count)], which panics on a negative count. *)
Definition Repeat (s : string) (count : Z) : option string :=
  if decide (count < 0) then None
  else Some (Nat.iter (Z.to_nat count) (String.append s) EmptyString).

Section Print.

Variable Sprint : Z -> string.

(** Body of the loop of lines 460-464; Go's [/] truncates toward zero. *)
Definition gantt_cell (s : TimeSlice) : option string :=
  let pid := Sprint (PID s) in
  padding ← Repeat " " (Z.quot (8 - Z.of_nat (String.length pid)) 2);
  Some (padding +:+ pid +:+ padding +:+ "|").

Fixpoint gantt_cells (g : list TimeSlice) : option string :=
  match g with
  | [] => Some EmptyString
  | s :: g' => c ← gantt_cell s; rest ← gantt_cells g'; Some (c +:+ rest)
  end.

(** The loop of lines 466-471: every start, and the stop of the last
    slice. *)
Fixpoint gantt_times (g : list TimeSlice) : string :=
  match g with
  | [] => EmptyString
  | s :: g' =>
      Sprint (Start s) +:+ tab +:+
      match g' with
      | [] => Sprint (Stop s)
      | _ => gantt_times g'
      end
  end.

Definition outputGantt (g : list TimeSlice) : option string :=
  cells ← gantt_cells g;
  Some ("Gantt schedule" +:+ newline +:+ "|" +:+ cells +:+ newline +:+
        gantt_times g +:+ newline +:+ newline).

End Print.

End Output.

(** ** Statements about the schedulers *)

(** The identities between the columns of a schedule row that belongs to
    process [p], in the 64-bit arithmetic in which the code computes them. *)
Definition row_identity (p : Process) (r : Row) : Prop :=
  rowBurst r = BurstDuration p /\
  rowArrival r = ArrivalTime p /\
  rowTurnaround r = Int64.add (rowWait r) (rowBurst r) /\
  rowExit r = Int64.add (Int64.add (rowArrival r) (rowWait r)) (rowBurst r) /\
  rowTurnaround r = Int64.sub (rowExit r) (rowArrival r).

(** Every assigned entry of [schedule] obeys [row_identity] for the process
    of the same index in the table [procs]. *)
Definition rows_ok (procs : list Process) (schedule : list (option Row)) : Prop :=
  Forall2 (fun p o => match o with Some r => row_identity p r | None => True end)
          procs schedule.

(** [serviceTimeSoFar] before process [i]: the bursts of the processes ahead
    of it in the table, added up. *)
Definition service_so_far (procs : list Process) (i : nat) : Z :=
  foldl (fun s p => Int64.add s (BurstDuration p)) 0 (take i procs).

(** The waiting time computed for the process before [i] ([0] for the
    first one: the variable's zero value). *)
Definition wait_before (schedule : list (option Row)) (i : nat) : Z :=
  match i with
  | O => 0
  | S j => match schedule !! j with Some (Some r) => rowWait r | _ => 0 end
  end.

(** The FCFS rule for process [p] at index [i], row [r] and slice [g]. *)
Definition fcfs_rule (procs : list Process) (schedule : list (option Row))
    (i : nat) (p : Process) (r : Row) (g : TimeSlice) : Prop :=
  (ArrivalTime p > 0 ->
     rowWait r = Int64.sub (service_so_far procs i) (ArrivalTime p)) /\
  (ArrivalTime p = 0 -> rowWait r = wait_before schedule i) /\
  PID g = ProcessID p /\
  Start g = Int64.add (rowWait r) (ArrivalTime p) /\
  rowExit r = Int64.add (Start g) (BurstDuration p) /\
  Stop g = service_so_far procs (S i).

(** The three-process table of the worked FCFS example. *)
Definition fcfs_example : list Process :=
  [ mkProcess 1 0 5 0; mkProcess 2 2 3 0; mkProcess 3 4 2 0 ].

(** A Gantt sequence is contiguous from time [t]: its first slice starts at
    [t] and every other slice starts where the one before it stops. *)
Fixpoint contiguous_from (t : Z) (g : list TimeSlice) : Prop :=
  match g with
  | [] => True
  | s :: g' => Start s = t /\ contiguous_from (Stop s) g'
  end.

(** Where a contiguous sequence that starts at [t] ends. *)
Fixpoint chain_end (t : Z) (g : list TimeSlice) : Z :=
  match g with
  | [] => t
  | s :: g' => chain_end (Stop s) g'
  end.

(** The length of a slice, as 64-bit arithmetic gives it. *)
Definition slice_length (s : TimeSlice) : Z := Int64.sub (Stop s) (Start s).

(** A slice is a full quantum or a shorter, non-empty remainder. *)
Definition quantum_or_rest (s : TimeSlice) : Prop :=
  slice_length s = RR.QuantumTime \/ 0 < slice_length s < RR.QuantumTime.

(** The slice that a visit of process [p] emits when the service time so
    far is [t]: a quantum if that much work is left, the rest if less is
    left, nothing if none is left. *)
Definition visit_slices (p : Process) (t : Z) : list TimeSlice :=
  if decide (BurstDuration p >= RR.QuantumTime) then
    [mkTimeSlice (ProcessID p) t (Int64.add t RR.QuantumTime)]
  else if decide (0 < BurstDuration p) then
    [mkTimeSlice (ProcessID p) t (Int64.add t (BurstDuration p))]
  else [].

(** Round-robin changed at most the burst of [p] into that of [q]; the
    burst of a well-formed process only went down, and not below zero. *)
Definition only_burst_consumed (p q : Process) : Prop :=
  ProcessID q = ProcessID p /\
  ArrivalTime q = ArrivalTime p /\
  Priority q = Priority p /\
  (Int64.in_range (BurstDuration p) ->
     BurstDuration q <= BurstDuration p /\
     (0 <= BurstDuration p -> 0 <= BurstDuration q)).

(** The SJF selection rule as the specification words it: whenever some
    process is eligible, the scan selects an eligible process whose
    remaining burst [r] is the least among the eligible ones, and the last
    such process in table order. *)
Definition selects_shortest (st : SJF.state) : Prop :=
  (exists i, SJF.eligible st i) ->
  exists (j : nat) (r : Z),
    SJF.select st = Some (Z.of_nat j) /\
    SJF.eligible st j /\
    SJF.RemainingBurst st !! j = Some r /\
    forall k r', SJF.eligible st k -> SJF.RemainingBurst st !! k = Some r' ->
                 r <= r' /\ (r' = r -> (k <= j)%nat).

(** The update of the best candidate [c] by an eligible process [p] at
    index [i] with remaining burst [r], as the code performs it (lines
    247-261, with [Priority <= SJP && Priority < SJP] read as
    [Priority < SJP]): the priority comparison first, the burst comparison
    otherwise.  As best burst the priority branch stores the process's
    original [BurstDuration] (line 255), the burst branch its remaining
    burst (line 259). *)
Definition two_branch_rule (i : nat) (p : Process) (r : Z)
    (c : SJFPriority.candidate) : SJFPriority.candidate :=
  if decide (Priority p < SJFPriority.ShortestJobPriority c) then
    SJFPriority.mkCandidate (Priority p) (Z.of_nat i) (BurstDuration p)
  else if decide (r < SJFPriority.ShortestJobBurst c) then
    SJFPriority.mkCandidate (Priority p) (Z.of_nat i) r
  else c.

(** The same update as the specification words it: a process replaces the
    best when its priority is strictly less than the best priority recorded
    so far, and otherwise when its remaining burst is strictly less than
    the best remaining burst recorded so far.  What is recorded as best
    burst is the remaining burst of the process that became the best, on
    either branch. *)
Definition spec_two_branch_rule (i : nat) (p : Process) (r : Z)
    (c : SJFPriority.candidate) : SJFPriority.candidate :=
  if decide (Priority p < SJFPriority.ShortestJobPriority c) then
    SJFPriority.mkCandidate (Priority p) (Z.of_nat i) r
  else if decide (r < SJFPriority.ShortestJobBurst c) then
    SJFPriority.mkCandidate (Priority p) (Z.of_nat i) r
  else c.

(** The scan of SJF-Priority with the specification's update in the place
    of the code's. *)
Definition spec_scan_body (st : SJF.state) (i : nat)
    (c : SJFPriority.candidate) : option SJFPriority.candidate :=
  r ← SJF.RemainingBurst st !! i;
  if decide (r > 0) then
    p ← SJF.processes st !! i;
    if decide (ArrivalTime p <= SJF.tick st)
    then Some (spec_two_branch_rule i p r c)
    else Some c
  else Some c.

Definition spec_scan (st : SJF.state) : option SJFPriority.candidate :=
  for_range (spec_scan_body st) 0 (length (SJF.processes st))
    (SJFPriority.mkCandidate 100000 (-1) 100000).

Definition spec_select (st : SJF.state) : option Z :=
  SJFPriority.ShortestJobIndex <$> spec_scan st.

(** Two processes that are both there at tick 0, the first with the lower
    priority value and the longer burst. *)
Definition priority_example : list Process :=
  [ mkProcess 1 0 5 1; mkProcess 2 0 3 2 ].

(** A process that has run for three ticks when a second one arrives: at
    tick 3 the first has 2 units left of its 5, the second all its 3. *)
Definition stale_burst_example : list Process :=
  [ mkProcess 1 0 5 1; mkProcess 2 3 3 2 ].

(** One process, there at tick 0, whose burst is one above the value that
    seeds the scan of SJF. *)
Definition long_burst_example : list Process :=
  [ mkProcess 1 0 100001 0 ].

(** The state of the SJF tick loop over [long_burst_example] after [t]
    ticks on which nobody ran. *)
Definition long_burst_idle (t : Z) : SJF.state :=
  SJF.mkState long_burst_example [100001] t (100001 + t) (-1) 0 [None] [].

(** ** Loop invariants *)

(** What holds before the iteration for index [i] of the FCFS loop. *)
Definition fcfs_inv (procs : list Process) (i : nat) (st : FCFS.state) : Prop :=
  FCFS.processes st = procs /\
  length (FCFS.schedule st) = length procs /\
  length (FCFS.gantt st) = i /\
  FCFS.serviceTime st = service_so_far procs i /\
  FCFS.waitingTime st = wait_before (FCFS.schedule st) i /\
  rows_ok procs (FCFS.schedule st) /\
  forall j p, (j < i)%nat -> procs !! j = Some p ->
    exists r g, FCFS.schedule st !! j = Some (Some r) /\
                FCFS.gantt st !! j = Some g /\
                fcfs_rule procs (FCFS.schedule st) j p r g.

(** What every state of the tick loop over the table [procs] satisfies. *)
Definition sjf_inv (procs : list Process) (st : SJF.state) : Prop :=
  SJF.processes st = procs /\
  length (SJF.RemainingBurst st) = length procs /\
  rows_ok procs (SJF.schedule st).

(** What the state of process [p0] of the original table looks like during
    the passes: [q] is its current record, [og] its entry of [OGBurst] and
    [o] its entry of [schedule]. *)
Definition rr_entry (p0 q : Process) (og : Z) (o : option Row) : Prop :=
  only_burst_consumed p0 q /\
  ((og = 0 /\ BurstDuration q = BurstDuration p0 /\ o = None) \/
   (og = BurstDuration p0 /\ og <> 0)) /\
  match o with Some r => row_identity p0 r | None => True end.

(** What every state of the passes over the table [procs] satisfies. *)
Definition rr_inv (procs : list Process) (st : RR.state) : Prop :=
  length (RR.processes st) = length procs /\
  length (RR.OGBurst st) = length procs /\
  length (RR.schedule st) = length procs /\
  (forall i p0, procs !! i = Some p0 ->
     exists q og o, RR.processes st !! i = Some q /\
                    RR.OGBurst st !! i = Some og /\
                    RR.schedule st !! i = Some o /\
                    rr_entry p0 q og o) /\
  Int64.in_range (RR.serviceTime st) /\
  contiguous_from 0 (RR.gantt st) /\
  chain_end 0 (RR.gantt st) = RR.serviceTime st /\
  Forall quantum_or_rest (RR.gantt st).

(** What the candidate [c] is once the indices below [i] are scanned. *)
Definition sjf_scan_inv (st : SJF.state) (i : nat) (c : SJF.candidate) : Prop :=
  (SJF.ShortestJobIndex c = -1 /\ SJF.ShortestJobBurst c = 100000 /\
   forall k r', (k < i)%nat -> SJF.eligible st k ->
                SJF.RemainingBurst st !! k = Some r' -> 100000 < r') \/
  (exists (j : nat) (r : Z),
     (j < i)%nat /\ SJF.ShortestJobIndex c = Z.of_nat j /\
     SJF.ShortestJobBurst c = r /\ r <= 100000 /\
     SJF.eligible st j /\ SJF.RemainingBurst st !! j = Some r /\
     forall k r', (k < i)%nat -> SJF.eligible st k ->
                  SJF.RemainingBurst st !! k = Some r' ->
                  r <= r' /\ (r' = r -> (k <= j)%nat)).

(** ** Work accounting of the tick loop *)

(** The sum of a list of integers. *)
Definition total (l : list Z) : Z := foldr Z.add 0 l.

(** The work a table asks for. *)
Definition total_burst (procs : list Process) : Z :=
  total (BurstDuration <$> procs).

(** A table whose processes arrive at or after time 0 and ask for no
    negative work. *)
Definition nonneg_table (procs : list Process) : Prop :=
  Forall (fun p => 0 <= ArrivalTime p /\ 0 <= BurstDuration p) procs.

(** A scan that never panics on a state whose slices have the length of the
    table, and that returns [-1] or the index of an eligible process. *)
Definition selects_eligible (select : SJF.state -> option Z) : Prop :=
  forall st, length (SJF.RemainingBurst st) = length (SJF.processes st) ->
    exists sji, select st = Some sji /\
      (sji = -1 \/ exists j : nat, sji = Z.of_nat j /\ SJF.eligible st j).

(** The row of a process [p] that waited a non-negative time, in plain
    integer arithmetic. *)
Definition finished_row (p : Process) (r : Row) : Prop :=
  rowID r = ProcessID p /\ rowPriority r = Priority p /\
  rowBurst r = BurstDuration p /\ rowArrival r = ArrivalTime p /\
  0 <= rowWait r /\
  rowTurnaround r = rowWait r + BurstDuration p /\
  rowExit r = ArrivalTime p + rowWait r + BurstDuration p.

(** The account of process [p] in a state of the tick loop at time [tick]:
    [r] is its remaining burst and [o] its entry of [schedule]. *)
Definition work_entry (tick : Z) (p : Process) (r : Z) (o : option Row) : Prop :=
  0 <= r <= BurstDuration p /\
  (r < BurstDuration p -> ArrivalTime p + (BurstDuration p - r) <= tick) /\
  (r = 0 -> 0 < BurstDuration p -> is_Some o) /\
  (forall row, o = Some row -> finished_row p row /\ rowExit row <= tick).

(** What every state of the tick loop over a [nonneg_table] satisfies as
    long as the clock cannot overflow: the horizon is the clock plus the
    work that is left. *)
Definition sjf_work_inv (procs : list Process) (st : SJF.state) : Prop :=
  SJF.processes st = procs /\
  length (SJF.RemainingBurst st) = length procs /\
  length (SJF.schedule st) = length procs /\
  0 <= SJF.tick st /\
  SJF.totalBurstTime st = SJF.tick st + total (SJF.RemainingBurst st) /\
  total (SJF.RemainingBurst st) <= total_burst procs /\
  forall i p r o, procs !! i = Some p -> SJF.RemainingBurst st !! i = Some r ->
                  SJF.schedule st !! i = Some o -> work_entry (SJF.tick st) p r o.

(** What the work accounting says about the end of a run: the horizon is
    the clock plus the work left, no remaining burst is negative, and a run
    that finished left no work and wrote a row for every process that asked
    for some. *)
Definition work_accounted (procs : list Process) (res : outcome * SJF.state) : Prop :=
  SJF.totalBurstTime res.2 = SJF.tick res.2 + total (SJF.RemainingBurst res.2) /\
  Forall (fun r => 0 <= r) (SJF.RemainingBurst res.2) /\
  (res.1 = Finished ->
     Forall (fun r => r = 0) (SJF.RemainingBurst res.2) /\
     Forall2 (fun p o => 0 < BurstDuration p -> is_Some o) procs (SJF.schedule res.2)).

(** Every row written so far belongs to a process that had arrived, got all
    its burst and waited a non-negative time, and was written no later than
    the clock of the state. *)
Definition rows_finished (procs : list Process) (st : SJF.state) : Prop :=
  Forall2 (fun p o => forall row, o = Some row ->
                      finished_row p row /\ rowExit row <= SJF.tick st)
          procs (SJF.schedule st).

(** A scan that selects somebody whenever somebody is eligible, on the
    states of the tick loop over [procs]. *)
Definition makes_progress (procs : list Process)
    (select : SJF.state -> option Z) : Prop :=
  forall st, sjf_work_inv procs st -> (exists i, SJF.eligible st i) ->
             select st <> Some (-1).

(** What the candidate [c] of the SJF-Priority scan is once the indices
    below [i] are scanned: still the seed, every eligible process so far
    being at or above both sentinels, or an eligible process. *)
Definition sjfp_scan_inv (st : SJF.state) (i : nat)
    (c : SJFPriority.candidate) : Prop :=
  (c = SJFPriority.mkCandidate 100000 (-1) 100000 /\
   forall k p r, (k < i)%nat -> SJF.processes st !! k = Some p ->
                 SJF.RemainingBurst st !! k = Some r -> SJF.eligible st k ->
                 100000 <= Priority p /\ 100000 <= r) \/
  (exists j : nat, (j < i)%nat /\ SJFPriority.ShortestJobIndex c = Z.of_nat j /\
                   SJF.eligible st j).

(** The number of ticks after which a run over [procs] is over when every
    process has arrived by time [latest]: one per unit of work and one per
    tick of waiting for an arrival. *)
Definition horizon_bound (procs : list Process) (latest : Z) : nat :=
  Z.to_nat (total_burst procs + latest).

(** ** Work accounting of round-robin *)

(** What one visit of round-robin does to the record of a process: it takes
    a quantum off its burst, or what is left of it, or nothing. *)
Definition consume_quantum (q : Process) : Process :=
  mkProcess (ProcessID q) (ArrivalTime q)
    (if decide (BurstDuration q >= RR.QuantumTime)
     then Int64.sub (BurstDuration q) RR.QuantumTime
     else if decide (BurstDuration q < RR.QuantumTime /\ BurstDuration q > 0)
     then Int64.sub (BurstDuration q) (BurstDuration q)
     else BurstDuration q)
    (Priority q).

(** The record of a process after [n] passes: [3 * n] units of its burst
    are served, the rest is left. *)
Definition left_after (n : Z) (p : Process) : Process :=
  mkProcess (ProcessID p) (ArrivalTime p)
    (if decide (0 <= BurstDuration p)
     then Z.max 0 (BurstDuration p - RR.QuantumTime * n)
     else BurstDuration p)
    (Priority p).

(** The service time is the work taken off the table [procs] so far. *)
Definition rr_served (procs : list Process) (st : RR.state) : Prop :=
  RR.serviceTime st
  = Int64.wrap (total_burst procs - total_burst (RR.processes st)).

(** ** First-come, first-serve back to back *)

(** The first process arrives at time 0 or later and every other process
    after time 0: no process takes the waiting time over from the one
    before it. *)
Definition arrivals_set_wait (procs : list Process) : Prop :=
  match procs with
  | [] => True
  | p :: rest => 0 <= ArrivalTime p /\ Forall (fun q => 0 < ArrivalTime q) rest
  end.

(** ** Loading and printing *)

(** The record [row] of the table file loads as the process [p]: its first
    three fields parse as ProcessID, BurstDuration and ArrivalTime, in that
    order, and the priority is the fourth field when there are exactly four
    fields and 0 otherwise. *)
Definition row_loads (ParseInt : string -> option Z)
    (row : list string) (p : Process) : Prop :=
  exists s0 s1 s2 rest,
    row = s0 :: s1 :: s2 :: rest /\
    ParseInt s0 = Some (ProcessID p) /\
    ParseInt s1 = Some (BurstDuration p) /\
    ParseInt s2 = Some (ArrivalTime p) /\
    match rest with
    | [s3] => ParseInt s3 = Some (Priority p)
    | _ => Priority p = 0
    end.

(** ** The tick loop when every process is there from the start *)



(** ** When the tick loop panics *)

(** [lastGanttIndex] is [-1] or an index of the table. *)
Definition sjf_idx_inv (st : SJF.state) : Prop :=
  SJF.lastGanttIndex st = -1 \/
  exists j : nat, (j < length (SJF.processes st))%nat /\
                  SJF.lastGanttIndex st = Z.of_nat j.

(** The state in which a run stopped if it stopped by a panic: one unit of
    work is left and no slice is open, so that the Gantt block of the next
    tick reads [processes[-1]]. *)
Definition panics_at_last_unit (res : outcome * SJF.state) : Prop :=
  res.1 = Panicked ->
  total (SJF.RemainingBurst res.2) = 1 /\
  SJF.tick res.2 = SJF.totalBurstTime res.2 - 1 /\
  SJF.lastGanttIndex res.2 = -1.

(** ** What round-robin looks at *)

(** Two process records with the same ID asking for the same work. *)
Definition same_work (p p' : Process) : Prop :=
  ProcessID p = ProcessID p' /\ BurstDuration p = BurstDuration p'.

(** Two states of round-robin, over the tables [procs] and [procs'], that
    have served the same work in the same slices. *)
Definition rr_same_run (procs procs' : list Process) (s s' : RR.state) : Prop :=
  rr_inv procs s /\ rr_inv procs' s' /\
  Forall2 same_work (RR.processes s) (RR.processes s') /\
  RR.serviceTime s = RR.serviceTime s' /\
  RR.gantt s = RR.gantt s'.

(** ** Facts about 64-bit arithmetic *)

Lemma wrap_in_range z : Int64.in_range (Int64.wrap z).
Proof.
  unfold Int64.in_range, Int64.wrap, Int64.min_signed, Int64.max_signed.
  pose proof (Z.mod_pos_bound (z + 2 ^ 63) (2 ^ 64)). lia.
Qed.

Lemma wrap_small z : Int64.in_range z -> Int64.wrap z = z.
Proof.
  unfold Int64.in_range, Int64.wrap, Int64.min_signed, Int64.max_signed.
  intros H. rewrite Z.mod_small; lia.
Qed.

(** Proves an equation between 64-bit expressions: every [wrap] becomes a
    quotient and a remainder, and linear arithmetic does the rest. *)
Ltac int64_eq :=
  first [ reflexivity
        | unfold Int64.add, Int64.sub, Int64.wrap in *;
          Z.div_mod_to_equations; lia ].

(** ** Facts about slices and loops *)

Lemma store_Some {A} (l l' : list A) i x :
  store l i x = Some l' -> (i < length l)%nat /\ l' = <[i := x]> l.
Proof. unfold store. case_decide; naive_solver. Qed.

Lemma store_lt {A} (l : list A) i x :
  (i < length l)%nat -> store l i x = Some (<[i := x]> l).
Proof. unfold store. case_decide; [done | lia]. Qed.

Lemma lookupZ_of_nat {A} (l : list A) (i : nat) : lookupZ l (Z.of_nat i) = l !! i.
Proof. unfold lookupZ. case_decide; [by rewrite Nat2Z.id | lia]. Qed.

Lemma storeZ_Some {A} (l l' : list A) (z : Z) x :
  storeZ l z x = Some l' ->
  exists i : nat, z = Z.of_nat i /\ (i < length l)%nat /\ l' = <[i := x]> l.
Proof.
  unfold storeZ. case_decide; [|done]. intros [? ?]%store_Some.
  exists (Z.to_nat z). split; [lia | done].
Qed.

(** The invariant rule of a [range] loop: an invariant indexed by the next
    index that every iteration re-establishes holds at the end, and the loop
    does not panic. *)
Lemma for_range_inv {St} (body : nat -> St -> option St)
    (I : nat -> St -> Prop) (n : nat) :
  forall (i : nat) (s : St),
    I i s ->
    (forall j s, (i <= j < i + n)%nat -> I j s ->
                 exists s', body j s = Some s' /\ I (S j) s') ->
    exists s', for_range body i n s = Some s' /\ I (i + n)%nat s'.
Proof.
  induction n as [|n IH]; intros i s Hi Hstep; simpl.
  - exists s. by rewrite Nat.add_0_r.
  - destruct (Hstep i s) as (s1 & -> & H1); [lia | done |]. simpl.
    destruct (IH (S i) s1) as (s2 & -> & H2); [done | |].
    + intros j s' Hj. apply Hstep. lia.
    + exists s2. split; [done|]. by replace (i + S n)%nat with (S i + n)%nat by lia.
Qed.

Lemma rows_ok_replicate procs : rows_ok procs (replicate (length procs) None).
Proof. unfold rows_ok. induction procs; simpl; constructor; auto. Qed.

Lemma rows_ok_insert procs schedule i p r :
  rows_ok procs schedule -> procs !! i = Some p -> row_identity p r ->
  rows_ok procs (<[i := Some r]> schedule).
Proof.
  unfold rows_ok. intros H Hp Hr.
  rewrite <- (list_insert_id procs i p Hp).
  by apply Forall2_insert.
Qed.

(** Where the sums do not overflow the identities are those of the
    integers. *)
Lemma row_identity_plain p r :
  row_identity p r ->
  Int64.in_range (rowWait r + rowBurst r) ->
  Int64.in_range (rowArrival r + rowWait r + rowBurst r) ->
  rowTurnaround r = rowWait r + BurstDuration p /\
  rowExit r = ArrivalTime p + rowWait r + BurstDuration p /\
  rowTurnaround r = rowExit r - ArrivalTime p.
Proof.
  intros (Hb & Ha & Ht & He & _) H1 H2.
  assert (Ht' : rowTurnaround r = rowWait r + rowBurst r).
  { rewrite Ht. by apply wrap_small. }
  assert (He' : rowExit r = rowArrival r + rowWait r + rowBurst r).
  { rewrite He. unfold Int64.add.
    unfold Int64.in_range, Int64.min_signed, Int64.max_signed in *. int64_eq. }
  rewrite <- Hb, <- Ha. lia.
Qed.

(** ** First-come, first-serve *)

Lemma service_so_far_S procs i p :
  procs !! i = Some p ->
  service_so_far procs (S i) = Int64.add (service_so_far procs i) (BurstDuration p).
Proof.
  intros Hp. unfold service_so_far.
  rewrite (take_S_r _ _ _ Hp), foldl_app. done.
Qed.

Lemma wait_before_insert schedule i j x :
  (j <= i)%nat -> wait_before (<[i := x]> schedule) j = wait_before schedule j.
Proof.
  intros Hj. destruct j as [|j]; [done|]. simpl.
  rewrite list_lookup_insert_ne by lia. done.
Qed.

Lemma fcfs_inv_init procs : fcfs_inv procs 0 (FCFS.init procs).
Proof.
  unfold fcfs_inv, FCFS.init; simpl.
  rewrite length_replicate. repeat split; auto using rows_ok_replicate.
  intros; lia.
Qed.

Lemma fcfs_inv_body procs i st :
  (i < length procs)%nat -> fcfs_inv procs i st ->
  exists st', FCFS.body i st = Some st' /\ fcfs_inv procs (S i) st'.
Proof.
  intros Hi (Hprocs & Hlen & Hg & Hsvc & Hw & Hrows & Hlaw).
  destruct (lookup_lt_is_Some_2 procs i Hi) as [p Hp].
  unfold FCFS.body. rewrite Hprocs, Hp. simpl.
  rewrite store_lt by lia. simpl.
  eexists. split; [reflexivity|].
  set (w := if decide (ArrivalTime p > 0)
            then Int64.sub (FCFS.serviceTime st) (ArrivalTime p)
            else FCFS.waitingTime st).
  set (r := mkRow _ _ _ _ _ _ _).
  unfold fcfs_inv; simpl.
  split; [done|]. split; [by rewrite length_insert|].
  split; [rewrite length_app; simpl; lia|].
  split; [by rewrite (service_so_far_S _ _ _ Hp), Hsvc|].
  split; [by rewrite list_lookup_insert_eq by lia|].
  split.
  { apply rows_ok_insert with (p := p); [done..|].
    subst r w; unfold row_identity; simpl. repeat split; int64_eq. }
  intros j q Hj Hq.
  destruct (decide (j = i)) as [->|Hne].
  - assert (q = p) as -> by congruence.
    exists r, (mkTimeSlice (ProcessID p) (Int64.add w (ArrivalTime p))
                 (Int64.add (FCFS.serviceTime st) (BurstDuration p))).
    split; [by rewrite list_lookup_insert_eq by lia|].
    split; [by rewrite lookup_app_r, Hg, Nat.sub_diag by lia|].
    unfold fcfs_rule; simpl. rewrite wait_before_insert by lia.
    subst w. repeat split.
    + intros Ha. rewrite decide_True by done. by rewrite Hsvc.
    + intros Ha. rewrite decide_False by lia. done.
    + int64_eq.
    + by rewrite (service_so_far_S _ _ _ Hp), Hsvc.
  - destruct (Hlaw j q) as (r' & g' & Hr' & Hg' & Hrule); [lia | done |].
    exists r', g'.
    split; [by rewrite list_lookup_insert_ne by lia|].
    split; [by rewrite lookup_app_l by lia|].
    unfold fcfs_rule in *. rewrite wait_before_insert by lia. done.
Qed.

(** The loop of FCFS never panics, and its final state satisfies the loop invariant for
    the whole table. *)
Lemma FCFSSchedule_inv procs :
  exists st, FCFS.FCFSSchedule procs = Some st /\ fcfs_inv procs (length procs) st.
Proof.
  unfold FCFS.FCFSSchedule.
  apply (for_range_inv FCFS.body (fcfs_inv procs) (length procs) 0 (FCFS.init procs)).
  - apply fcfs_inv_init.
  - intros j s Hj. apply fcfs_inv_body. lia.
Qed.

(** C5: FCFS serves the table in input order.  The process at index [i]
    gets one row and the [i]-th Gantt slice; its waiting time is
    [serviceTimeSoFar - ArrivalTime] when it arrives after time 0 and the
    waiting time of the process before it when it arrives at 0; its slice
    starts at wait + arrival and its completion is start + burst, where
    [serviceTimeSoFar] adds up the bursts served.  On the table
    (1,0,5), (2,2,3), (3,4,2) the waits are 0, 3, 4 and the completions
    5, 8, 10. *)
Theorem FCFS_order_and_waiting :
  (forall procs i p, procs !! i = Some p ->
     exists st r g,
       FCFS.FCFSSchedule procs = Some st /\
       FCFS.schedule st !! i = Some (Some r) /\
       FCFS.gantt st !! i = Some g /\
       fcfs_rule procs (FCFS.schedule st) i p r g) /\
  (exists st, FCFS.FCFSSchedule fcfs_example = Some st /\
     rowWait <$> produced (FCFS.schedule st) = [0; 3; 4] /\
     rowExit <$> produced (FCFS.schedule st) = [5; 8; 10]).
Proof.
  split.
  - intros procs i p Hp.
    destruct (FCFSSchedule_inv procs) as (st & Hrun & Hinv).
    destruct Hinv as (_ & _ & _ & _ & _ & _ & Hlaw).
    destruct (Hlaw i p) as (r & g & ?); [by eapply lookup_lt_Some | done |].
    by exists st, r, g.
  - eexists. split; [vm_compute; reflexivity|]. by vm_compute.
Qed.

Lemma FCFS_order_and_waiting_witness :
  exists st r g,
    FCFS.FCFSSchedule fcfs_example = Some st /\
    FCFS.schedule st !! 1%nat = Some (Some r) /\
    FCFS.gantt st !! 1%nat = Some g /\
    fcfs_rule fcfs_example (FCFS.schedule st) 1 (mkProcess 2 2 3 0) r g.
Proof.
  exact (proj1 FCFS_order_and_waiting fcfs_example 1%nat (mkProcess 2 2 3 0) eq_refl).
Defined.

(** ** The tick loop shared by the two shortest-job schedulers *)

Lemma finish_row_identity p t : row_identity p (SJF.finish_row p (Int64.add t 1)).
Proof. unfold row_identity, SJF.finish_row; simpl. repeat split; int64_eq. Qed.

Lemma init_burst_insert (procs : list Process) i p :
  procs !! i = Some p ->
  <[i := BurstDuration p]>
    ((BurstDuration <$> take i procs) ++ replicate (length procs - i) 0)
  = (BurstDuration <$> take (S i) procs) ++ replicate (length procs - S i) 0.
Proof.
  intros Hp. pose proof (lookup_lt_Some _ _ _ Hp) as Hi.
  rewrite (take_S_r _ _ _ Hp), fmap_app, <- app_assoc. simpl.
  replace (length procs - i)%nat with (S (length procs - S i)) by lia. simpl.
  rewrite insert_app_r_alt; rewrite length_fmap, length_take; [|lia].
  by replace (i - i `min` length procs)%nat with 0%nat by lia.
Qed.

(** The loop of lines 148-151 copies the bursts and adds them up. *)
Lemma SJF_init_spec procs :
  SJF.init procs = Some
    {| SJF.processes := procs;
       SJF.RemainingBurst := BurstDuration <$> procs;
       SJF.tick := 0;
       SJF.totalBurstTime := service_so_far procs (length procs);
       SJF.lastGanttIndex := -1;
       SJF.lastGanttStartTime := 0;
       SJF.schedule := replicate (length procs) None;
       SJF.gantt := [] |}.
Proof.
  pose (I := fun (i : nat) (st : SJF.state) =>
    st = {| SJF.processes := procs;
            SJF.RemainingBurst :=
              (BurstDuration <$> take i procs) ++ replicate (length procs - i) 0;
            SJF.tick := 0;
            SJF.totalBurstTime := service_so_far procs i;
            SJF.lastGanttIndex := -1;
            SJF.lastGanttStartTime := 0;
            SJF.schedule := replicate (length procs) None;
            SJF.gantt := [] |}).
  destruct (for_range_inv SJF.init_body I (length procs) 0 (SJF.start procs))
    as (st & Hrun & Hst).
  - unfold I, SJF.start. simpl. by rewrite Nat.sub_0_r.
  - intros j s Hj ->. unfold I.
    destruct (lookup_lt_is_Some_2 procs j) as [p Hp]; [lia|].
    unfold SJF.init_body. simpl. rewrite Hp. simpl.
    rewrite store_lt.
    2:{ rewrite length_app, length_fmap, length_take, length_replicate. lia. }
    simpl. eexists. split; [reflexivity|].
    by rewrite init_burst_insert, (service_so_far_S _ _ _ Hp).
  - unfold SJF.init. rewrite Hrun. unfold I in Hst. simpl in Hst. rewrite Hst.
    by rewrite firstn_all, Nat.sub_diag, app_nil_r.
Qed.

Lemma sjf_inv_init procs st : SJF.init procs = Some st -> sjf_inv procs st.
Proof.
  rewrite SJF_init_spec. intros [= <-]. unfold sjf_inv; simpl.
  rewrite length_fmap. auto using rows_ok_replicate.
Qed.

Lemma sjf_inv_start procs : sjf_inv procs (SJF.start procs).
Proof.
  unfold sjf_inv, SJF.start; simpl. rewrite length_replicate.
  auto using rows_ok_replicate.
Qed.

(** Closing a Gantt slice touches the Gantt variables only. *)
Lemma close_slice_frame sji st st' :
  SJF.close_slice sji st = Some st' ->
  SJF.processes st' = SJF.processes st /\
  SJF.RemainingBurst st' = SJF.RemainingBurst st /\
  SJF.tick st' = SJF.tick st /\
  SJF.totalBurstTime st' = SJF.totalBurstTime st /\
  SJF.schedule st' = SJF.schedule st.
Proof.
  unfold SJF.close_slice. intros H.
  repeat case_decide; simplify_option_eq; done.
Qed.

Lemma sjf_inv_close_slice procs sji st st' :
  sjf_inv procs st -> SJF.close_slice sji st = Some st' -> sjf_inv procs st'.
Proof.
  intros (Hp & Hl & Hr) (Hp' & Hl' & _ & _ & Hs')%close_slice_frame.
  unfold sjf_inv. by rewrite Hp', Hl', Hs'.
Qed.

Lemma sjf_inv_account procs sji st st' :
  sjf_inv procs st -> SJF.account sji st = Some st' -> sjf_inv procs st'.
Proof.
  intros (Hp & Hl & Hr). unfold SJF.account. intros H.
  case_decide; [by simplify_eq|].
  destruct (lookupZ (SJF.RemainingBurst st) sji) as [r|] eqn:Er; [|done].
  simpl in H.
  destruct (storeZ (SJF.RemainingBurst st) sji (Int64.sub r 1)) as [rem|] eqn:Es; [|done].
  simpl in H. apply storeZ_Some in Es as (i & -> & Hi & ->).
  case_decide.
  - destruct (lookupZ (SJF.processes st) (Z.of_nat i)) as [p|] eqn:Eq; [|done].
    simpl in H. rewrite lookupZ_of_nat in Eq.
    destruct (storeZ (SJF.schedule st) _ _) as [sch|] eqn:Esch; [|done].
    simpl in H. apply storeZ_Some in Esch as (i' & Hi' & _ & ->).
    apply Nat2Z.inj in Hi' as <-. simplify_eq. unfold sjf_inv; simpl.
    rewrite length_insert. repeat split; [done|].
    apply rows_ok_insert with (p := p); [done..|]. apply finish_row_identity.
  - simpl in H. simplify_eq. unfold sjf_inv; simpl. by rewrite length_insert.
Qed.

Lemma sjf_inv_body select procs st st' :
  sjf_inv procs st -> SJF.body select st = Some st' -> sjf_inv procs st'.
Proof.
  unfold SJF.body. intros Hinv H.
  destruct (select st) as [sji|]; [|done]. simpl in H.
  destruct (SJF.close_slice sji st) as [st1|] eqn:E1; [|done]. simpl in H.
  eauto using sjf_inv_close_slice, sjf_inv_account.
Qed.

Lemma sjf_inv_loop select procs fuel : forall st,
  sjf_inv procs st -> sjf_inv procs (SJF.loop select fuel st).2.
Proof.
  induction fuel as [|fuel IH]; intros st Hinv; simpl.
  - by case_decide.
  - case_decide; [|done].
    destruct (SJF.body select st) as [st'|] eqn:E; [|done].
    eauto using sjf_inv_body.
Qed.

(** However the scan picks the job and however the run ends (normally, by a
    panic or stopped after [fuel] ticks), the tick loop keeps the table and
    writes only rows that obey the identities. *)
Lemma sjf_inv_run select fuel procs : sjf_inv procs (SJF.run select fuel procs).2.
Proof.
  unfold SJF.run. destruct (SJF.init procs) as [st|] eqn:E.
  - apply sjf_inv_loop. by apply sjf_inv_init.
  - apply sjf_inv_start.
Qed.

(** ** Round-robin *)

Lemma contiguous_from_snoc t g s :
  contiguous_from t g -> Start s = chain_end t g -> contiguous_from t (g ++ [s]).
Proof.
  revert t. induction g as [|a g IH]; simpl; intros t Hc Hs; [done|].
  destruct Hc as [? ?]. split; [done|]. by apply IH.
Qed.

Lemma chain_end_snoc t g s : chain_end t (g ++ [s]) = Stop s.
Proof. revert t. induction g as [|a g IH]; simpl; intros t; [done | apply IH]. Qed.

Lemma rr_inv_init procs : rr_inv procs (RR.init procs).
Proof.
  unfold rr_inv, RR.init; simpl. rewrite !length_replicate.
  repeat split; try done.
  intros i p0 Hp. pose proof (lookup_lt_Some _ _ _ Hp).
  exists p0, 0, None. rewrite !lookup_replicate_2 by done.
  unfold rr_entry, only_burst_consumed. repeat split; auto; lia.
Qed.

(** Serving [work] units to the process at index [i]: the state stays
    well-formed and exactly one slice of that length is appended where the
    sequence ended. *)
Lemma rr_inv_serve procs i q work st :
  rr_inv procs st -> RR.processes st !! i = Some q ->
  0 < work <= RR.QuantumTime -> work <= BurstDuration q ->
  exists st', RR.serve i q work st = Some st' /\ rr_inv procs st' /\
    RR.gantt st' = RR.gantt st ++
      [mkTimeSlice (ProcessID q) (RR.serviceTime st) (Int64.add (RR.serviceTime st) work)].
Proof.
  intros (Hlp & Hlo & Hls & Hent & Hsvc & Hcont & Hend & Hlen) Hq Hwork Hle.
  unfold RR.QuantumTime in Hwork.
  pose proof (lookup_lt_Some _ _ _ Hq) as Hi. rewrite Hlp in Hi.
  destruct (lookup_lt_is_Some_2 procs i Hi) as [p0 Hp0].
  destruct (Hent i p0 Hp0) as (q' & og & o & Hq' & Hog & Ho & Hcons & Hcase & Hrow).
  assert (q' = q) as -> by congruence.
  set (og' := if decide (og = 0) then BurstDuration q else og).
  assert (Hog' : og' = BurstDuration p0 /\ og' <> 0).
  { subst og'. case_decide.
    - destruct Hcase as [(_ & Hb & _)|[? ?]]; [|done]. lia.
    - destruct Hcase as [(? & _)|?]; done. }
  assert (Hstart : Int64.add (Int64.sub (RR.serviceTime st) (ArrivalTime q)) (ArrivalTime q)
                   = RR.serviceTime st).
  { unfold Int64.in_range, Int64.min_signed, Int64.max_signed in Hsvc. int64_eq. }
  unfold RR.serve. rewrite Hog. simpl.
  assert (Hst : (if decide (og = 0) then store (RR.OGBurst st) i (BurstDuration q)
                 else Some (RR.OGBurst st))
                = Some (<[i := og']> (RR.OGBurst st))).
  { subst og'. case_decide.
    - by rewrite store_lt by lia.
    - by rewrite list_insert_id. }
  rewrite Hst. simpl. rewrite list_lookup_insert_eq by lia. simpl.
  rewrite !store_lt by lia. simpl.
  eexists. split; [reflexivity|]. rewrite Hstart. split; [|done].
  set (r := mkRow _ _ _ _ _ _ _).
  destruct Hcons as (Hid & Harr & Hpri & Hburst).
  assert (Hrid : row_identity p0 r).
  { subst r. destruct Hog' as [Ho' _].
    unfold row_identity; simpl. rewrite Ho', Harr. repeat split; int64_eq. }
  unfold rr_inv; simpl. rewrite !length_insert.
  split; [done|]. split; [done|]. split; [done|]. split.
  { intros j pj Hpj. destruct (decide (j = i)) as [->|Hne].
    - assert (pj = p0) as -> by congruence.
      eexists _, og', (Some r). rewrite !list_lookup_insert_eq by lia.
      split; [done|]. split; [done|]. split; [done|].
      unfold rr_entry, only_burst_consumed; simpl.
      split; [|split; [by right | done]].
      split; [done|]. split; [done|]. split; [done|].
      intros Hr. destruct (Hburst Hr) as [Hb1 Hb2].
      unfold Int64.in_range, Int64.min_signed, Int64.max_signed in Hr.
      assert (Int64.sub (BurstDuration q) work = BurstDuration q - work) as ->
        by (unfold Int64.sub; apply wrap_small;
            unfold Int64.in_range, Int64.min_signed, Int64.max_signed; lia).
      lia.
    - destruct (Hent j pj Hpj) as (qj & ogj & oj & ? & ? & ? & ?).
      exists qj, ogj, oj. by rewrite !list_lookup_insert_ne by done. }
  split; [apply wrap_in_range|].
  split; [by apply contiguous_from_snoc|].
  split; [by rewrite chain_end_snoc|].
  apply Forall_app. split; [done|]. constructor; [|done].
  unfold quantum_or_rest, slice_length, RR.QuantumTime; simpl.
  assert (Int64.sub (Int64.add (RR.serviceTime st) work) (RR.serviceTime st) = work) as ->
    by int64_eq.
  lia.
Qed.

(** A visit keeps the state well-formed and appends what [visit_slices]
    says. *)
Lemma rr_inv_visit procs i st :
  (i < length procs)%nat -> rr_inv procs st ->
  exists st' q, RR.visit i st = Some st' /\ rr_inv procs st' /\
    RR.processes st !! i = Some q /\
    RR.gantt st' = RR.gantt st ++ visit_slices q (RR.serviceTime st).
Proof.
  intros Hi Hinv.
  destruct (lookup_lt_is_Some_2 (RR.processes st) i) as [q Hq].
  { destruct Hinv as (-> & _). done. }
  unfold RR.visit, visit_slices. rewrite Hq. simpl.
  destruct (decide (BurstDuration q >= RR.QuantumTime)) as [Hge|Hge].
  - destruct (rr_inv_serve procs i q RR.QuantumTime st) as (st' & ? & ? & ?);
      [done | done | unfold RR.QuantumTime; lia | lia |].
    exists st', q. rewrite decide_True by done. auto.
  - unfold RR.QuantumTime in *.
    destruct (decide (0 < BurstDuration q)) as [Hpos|Hpos].
    + destruct (rr_inv_serve procs i q (BurstDuration q) st) as (st' & ? & ? & ?);
        [done | done | unfold RR.QuantumTime; lia | lia |].
      exists st', q. rewrite decide_True by lia. rewrite decide_False, decide_True by lia. auto.
    + exists st, q. rewrite !decide_False by lia. rewrite app_nil_r. auto.
Qed.

Lemma rr_inv_range procs st i n :
  (i + n <= length procs)%nat -> rr_inv procs st ->
  exists st', for_range RR.visit i n st = Some st' /\ rr_inv procs st' /\
              RR.gantt st `prefix_of` RR.gantt st'.
Proof.
  intros Hn Hinv.
  destruct (for_range_inv RR.visit
              (fun _ s => rr_inv procs s /\ RR.gantt st `prefix_of` RR.gantt s) n i st)
    as (st' & ? & ? & ?); [done | | exists st'; auto].
  intros j s Hj [Hs Hpre].
  destruct (rr_inv_visit procs j s) as (s' & q & ? & ? & _ & Hg); [lia | done |].
  exists s'. split; [done|]. split; [done|].
  rewrite Hg. by apply prefix_app_r.
Qed.

Lemma rr_inv_pass procs st :
  rr_inv procs st ->
  exists st', RR.pass st = Some st' /\ rr_inv procs st' /\
              RR.gantt st `prefix_of` RR.gantt st'.
Proof.
  intros Hinv. unfold RR.pass.
  assert (Hlen : length (RR.processes st) = length procs) by apply Hinv.
  rewrite Hlen. by apply rr_inv_range.
Qed.

Lemma rr_inv_passes procs n : forall st,
  rr_inv procs st ->
  exists st', RR.passes n st = Some st' /\ rr_inv procs st' /\
              RR.gantt st `prefix_of` RR.gantt st'.
Proof.
  induction n as [|n IH]; intros st Hinv; simpl; [exists st; auto|].
  destruct (rr_inv_pass procs st Hinv) as (st1 & -> & H1 & Hp1). simpl.
  destruct (IH st1 H1) as (st2 & ? & ? & ?). exists st2.
  split; [done|]. split; [done|]. by etrans.
Qed.

(** The passes of round-robin never panic, and their final state is
    well-formed. *)
Lemma RRSchedule_inv procs :
  exists st, RR.RRSchedule procs = Some st /\ rr_inv procs st.
Proof.
  destruct (rr_inv_passes procs 1000 (RR.init procs)) as (st & ? & ? & _);
    [apply rr_inv_init | by exists st].
Qed.

Lemma rr_inv_rows_ok procs st : rr_inv procs st -> rows_ok procs (RR.schedule st).
Proof.
  intros (_ & _ & Hls & Hent & _). unfold rows_ok.
  apply Forall2_same_length_lookup_2; [done|].
  intros i p o Hp Ho.
  destruct (Hent i p Hp) as (q & og & o' & _ & _ & Ho' & _ & _ & Hrow).
  by assert (o' = o) as -> by congruence.
Qed.

Lemma rr_inv_frame procs st :
  rr_inv procs st -> Forall2 only_burst_consumed procs (RR.processes st).
Proof.
  intros (Hlp & _ & _ & Hent & _).
  apply Forall2_same_length_lookup_2; [done|].
  intros i p q Hp Hq.
  destruct (Hent i p Hp) as (q' & og & o' & Hq' & _ & _ & Hcons & _).
  by assert (q' = q) as -> by congruence.
Qed.

(** In a non-empty table of positive bursts the very first visit emits a
    slice, so the Gantt sequence is not empty after the first pass. *)
Lemma RR_passes_gantt_nonempty procs n st :
  procs <> [] -> Forall (fun p => BurstDuration p > 0) procs ->
  RR.passes (S n) (RR.init procs) = Some st -> RR.gantt st <> [].
Proof.
  intros Hne Hpos Hrun.
  destruct procs as [|p procs]; [done|]. clear Hne.
  pose proof (Forall_inv Hpos) as Hp. simpl in Hp.
  destruct (rr_inv_visit (p :: procs) 0 (RR.init (p :: procs)))
    as (s1 & q & Hv & Hs1 & Hq & Hg1); [simpl; lia | apply rr_inv_init |].
  simpl in Hq. injection Hq as <-.
  assert (Hn1 : RR.gantt s1 <> []).
  { rewrite Hg1. unfold visit_slices, RR.QuantumTime.
    repeat case_decide; simpl; (done || lia). }
  destruct (rr_inv_range (p :: procs) s1 1 (length procs))
    as (s2 & Hr2 & Hs2 & Hp2); [simpl; lia | done |].
  destruct (rr_inv_passes (p :: procs) n s2 Hs2) as (s3 & Hr3 & _ & Hp3).
  assert (Hrun' : RR.passes (S n) (RR.init (p :: procs)) = Some s3).
  { simpl. unfold RR.pass. simpl. simpl in Hv. rewrite Hv. simpl.
    rewrite Hr2. simpl. done. }
  assert (st = s3) as -> by congruence.
  intros Hnil. assert (Hpre : RR.gantt s1 `prefix_of` RR.gantt s3) by by etrans.
  rewrite Hnil in Hpre. by apply prefix_nil_inv in Hpre.
Qed.

(** The slice a visit appends, read off the code on any state whose service
    time is a 64-bit value (as it always is). *)
Lemma RR_visit_gantt st i q st' :
  Int64.in_range (RR.serviceTime st) ->
  RR.processes st !! i = Some q ->
  RR.visit i st = Some st' ->
  RR.gantt st' = RR.gantt st ++ visit_slices q (RR.serviceTime st).
Proof.
  intros Hsvc Hq. unfold RR.visit, visit_slices. rewrite Hq. simpl.
  assert (Hstart : Int64.add (Int64.sub (RR.serviceTime st) (ArrivalTime q)) (ArrivalTime q)
                   = RR.serviceTime st).
  { unfold Int64.in_range, Int64.min_signed, Int64.max_signed in Hsvc. int64_eq. }
  unfold RR.QuantumTime.
  destruct (decide (BurstDuration q >= 3)) as [Hge|Hge].
  - unfold RR.serve. intros H. simplify_option_eq; by rewrite Hstart.
  - destruct (decide (0 < BurstDuration q)) as [Hpos|Hpos].
    + rewrite decide_True by lia. unfold RR.serve. intros H.
      simplify_option_eq; by rewrite Hstart.
    + rewrite decide_False by lia. intros [= <-]. by rewrite app_nil_r.
Qed.

(** ** Schedule rows, the process table and the round-robin Gantt sequence *)

(** C1: under each of the four schedulers, every schedule row that is
    written for a process carries that process's original burst and arrival
    and satisfies Turnaround = Wait + Burst,
    Exit = Arrival + Wait + Burst and Turnaround = Exit - Arrival (in the
    code's 64-bit arithmetic).  FCFS and round-robin always return; for the
    two tick-driven schedulers the rows written so far obey the identities
    after any number of ticks, however the run ends. *)
Theorem schedule_rows_identity (procs : list Process) :
  (exists st, FCFS.FCFSSchedule procs = Some st /\
              rows_ok procs (FCFS.schedule st)) /\
  (forall fuel, rows_ok procs (SJF.schedule (SJF.SJFSchedule fuel procs).2)) /\
  (forall fuel,
     rows_ok procs (SJF.schedule (SJFPriority.SJFPrioritySchedule fuel procs).2)) /\
  (exists st, RR.RRSchedule procs = Some st /\
              rows_ok procs (RR.schedule st)).
Proof.
  split; [|split; [|split]].
  - destruct (FCFSSchedule_inv procs) as (st & Hrun & Hinv).
    exists st. split; [done|]. apply Hinv.
  - intros fuel. apply (sjf_inv_run SJF.select fuel procs).
  - intros fuel. apply (sjf_inv_run SJFPriority.select fuel procs).
  - destruct (RRSchedule_inv procs) as (st & Hrun & Hinv).
    exists st. split; [done|]. by apply rr_inv_rows_ok.
Qed.

(** C8: round-robin on a table of one process with burst 7 and arrival 0
    emits exactly three slices, stopping at 3, 6 and 7, and reports waiting
    time 0 for the process. *)
Theorem RR_single_burst_7 (pid prio : Z) :
  exists st, RR.RRSchedule [mkProcess pid 0 7 prio] = Some st /\
    RR.gantt st = [mkTimeSlice pid 0 3; mkTimeSlice pid 3 6; mkTimeSlice pid 6 7] /\
    Stop <$> RR.gantt st = [3; 6; 7] /\
    slice_length <$> RR.gantt st = [3; 3; 1] /\
    rowWait <$> produced (RR.schedule st) = [0].
Proof. eexists. split; [vm_compute; reflexivity|]. by vm_compute. Qed.

(** C9: FCFS and the two shortest-job schedulers leave the process table as
    it was; round-robin keeps the length of the table and the ProcessID,
    ArrivalTime and Priority of every record and only consumes
    BurstDuration (as on the one-process table with burst 7, whose burst
    ends at 0). *)
Theorem process_table_frame (procs : list Process) :
  (exists st, FCFS.FCFSSchedule procs = Some st /\ FCFS.processes st = procs) /\
  (forall fuel, SJF.processes (SJF.SJFSchedule fuel procs).2 = procs) /\
  (forall fuel, SJF.processes (SJFPriority.SJFPrioritySchedule fuel procs).2 = procs) /\
  (exists st, RR.RRSchedule procs = Some st /\
              Forall2 only_burst_consumed procs (RR.processes st)) /\
  (exists st, RR.RRSchedule [mkProcess 1 0 7 0] = Some st /\
              RR.processes st = [mkProcess 1 0 0 0]).
Proof.
  split; [|split; [|split; [|split]]].
  - destruct (FCFSSchedule_inv procs) as (st & Hrun & Hinv).
    exists st. split; [done|]. apply Hinv.
  - intros fuel. apply (sjf_inv_run SJF.select fuel procs).
  - intros fuel. apply (sjf_inv_run SJFPriority.select fuel procs).
  - destruct (RRSchedule_inv procs) as (st & Hrun & Hinv).
    exists st. split; [done|]. by apply rr_inv_frame.
  - eexists. split; [vm_compute; reflexivity|]. by vm_compute.
Qed.

(** C10: on a non-empty table of positive bursts round-robin returns a
    non-empty Gantt sequence that is contiguous from 0 (the first slice
    starts at 0 and each later one where the one before stops, whatever the
    arrival times) and whose slices are a quantum of 3 or shorter and not
    empty; and the slice a visit appends starts at the service time so far
    and is a quantum long when the process has at least a quantum left, as
    long as its remaining burst when less is left. *)
Theorem RR_gantt_contiguous :
  (forall procs,
     procs <> [] -> Forall (fun p => BurstDuration p > 0) procs ->
     exists st, RR.RRSchedule procs = Some st /\
       RR.gantt st <> [] /\
       contiguous_from 0 (RR.gantt st) /\
       Forall quantum_or_rest (RR.gantt st)) /\
  (forall st i q st',
     Int64.in_range (RR.serviceTime st) ->
     RR.processes st !! i = Some q ->
     RR.visit i st = Some st' ->
     RR.gantt st' = RR.gantt st ++ visit_slices q (RR.serviceTime st)).
Proof.
  split.
  - intros procs Hne Hpos.
    destruct (RRSchedule_inv procs) as (st & Hrun & Hinv).
    exists st. split; [done|].
    split; [by apply (RR_passes_gantt_nonempty procs 999)|].
    destruct Hinv as (_ & _ & _ & _ & _ & Hc & _ & Hl). done.
  - apply RR_visit_gantt.
Qed.

Lemma RR_gantt_contiguous_witness :
  (exists st, RR.RRSchedule [mkProcess 1 4 7 0; mkProcess 2 0 2 0] = Some st /\
     RR.gantt st <> [] /\
     contiguous_from 0 (RR.gantt st) /\
     Forall quantum_or_rest (RR.gantt st)) /\
  (exists st', RR.visit 1 (RR.mkState [mkProcess 1 4 4 0; mkProcess 2 0 2 0] 3 (-4)
                            [Some (mkRow 1 0 7 4 (-4) 3 3); None]
                            [mkTimeSlice 1 0 3] [7; 0]) = Some st' /\
     RR.gantt st' = [mkTimeSlice 1 0 3] ++ visit_slices (mkProcess 2 0 2 0) 3).
Proof.
  split.
  - apply (proj1 RR_gantt_contiguous [mkProcess 1 4 7 0; mkProcess 2 0 2 0]).
    + done.
    + repeat constructor.
  - eexists. split; [reflexivity|].
    apply (proj2 RR_gantt_contiguous
             (RR.mkState [mkProcess 1 4 4 0; mkProcess 2 0 2 0] 3 (-4)
                [Some (mkRow 1 0 7 4 (-4) 3 3); None] [mkTimeSlice 1 0 3] [7; 0])
             1%nat (mkProcess 2 0 2 0)).
    + unfold Int64.in_range, Int64.min_signed, Int64.max_signed; simpl; lia.
    + reflexivity.
    + reflexivity.
Defined.

(** A run that ends normally: the example table under SJF. *)
Example SJFSchedule_example :
  SJF.SJFSchedule 10 fcfs_example
  = (Finished,
     SJF.mkState fcfs_example [0; 0; 0] 10 10 0 9
       [Some (mkRow 1 0 5 0 5 10 10); Some (mkRow 2 0 3 2 0 3 5);
        Some (mkRow 3 0 2 4 1 3 7)]
       [mkTimeSlice 1 0 2; mkTimeSlice 2 2 5; mkTimeSlice 3 5 7;
        mkTimeSlice 1 7 10]).
Proof. vm_compute. reflexivity. Qed.

(** ** The scan of shortest-job-first *)

Lemma eligible_lookup st k r p :
  SJF.RemainingBurst st !! k = Some r -> SJF.processes st !! k = Some p ->
  SJF.eligible st k <-> r > 0 /\ ArrivalTime p <= SJF.tick st.
Proof.
  intros Hr Hp. unfold SJF.eligible. split.
  - intros (r' & p' & Hr' & Hp' & ? & ?). by simplify_eq.
  - intros [? ?]. by exists r, p.
Qed.

Lemma sjf_scan_body_inv st i c :
  length (SJF.RemainingBurst st) = length (SJF.processes st) ->
  (i < length (SJF.processes st))%nat ->
  sjf_scan_inv st i c ->
  exists c', SJF.scan_body st i c = Some c' /\ sjf_scan_inv st (S i) c'.
Proof.
  intros Hlen Hi Hinv.
  destruct (lookup_lt_is_Some_2 (SJF.processes st) i Hi) as [p Hp].
  destruct (lookup_lt_is_Some_2 (SJF.RemainingBurst st) i) as [r Hr]; [lia|].
  pose proof (eligible_lookup st i r p Hr Hp) as Hel.
  unfold SJF.scan_body. rewrite Hr. simpl.
  destruct (decide (r > 0)) as [Hpos|Hpos].
  - rewrite Hp. simpl.
    destruct (decide (ArrivalTime p <= SJF.tick st /\ r <= SJF.ShortestJobBurst c))
      as [[Harr Hle]|Hno].
    + (* the process at [i] becomes the candidate *)
      eexists. split; [reflexivity|]. right. exists i, r. simpl.
      assert (Helig : SJF.eligible st i) by (apply Hel; done).
      assert (Hr100 : r <= 100000).
      { destruct Hinv as [(_ & Hb & _)|(j & r0 & _ & _ & Hb & Hr0 & _)]; lia. }
      split_and!; [lia | done | done | done | done | done |].
      intros k r' Hk Hek Hrk.
      destruct (decide (k = i)) as [->|Hne]; [simplify_eq; lia|].
      destruct Hinv as [(_ & Hb & Hall)|(j & r0 & Hj & _ & Hb & Hr0 & _ & _ & Hall)].
      * assert (100000 < r') by (apply (Hall k r'); [lia | done | done]). lia.
      * destruct (Hall k r') as [? ?]; [lia | done | done | lia].
    + (* the candidate stays *)
      eexists. split; [reflexivity|].
      destruct Hinv as [(Hidx & Hb & Hall)|(j & r0 & Hj & Hidx & Hb & Hr0 & Hej & Hrj & Hall)].
      * left. split_and!; [done | done |].
        intros k r' Hk Hek Hrk.
        destruct (decide (k = i)) as [->|?]; [|apply (Hall k r'); [lia | done | done]].
        simplify_eq. apply Hel in Hek. lia.
      * right. exists j, r0. split_and!; [lia | done | done | done | done | done |].
        intros k r' Hk Hek Hrk.
        destruct (decide (k = i)) as [->|?].
        -- simplify_eq. apply Hel in Hek. lia.
        -- destruct (Hall k r') as [? Hkj]; [lia | done | done |]. done.
  - eexists. split; [reflexivity|].
    assert (Hnot : ~ SJF.eligible st i) by (rewrite Hel; lia).
    destruct Hinv as [(Hidx & Hb & Hall)|(j & r0 & Hj & Hidx & Hb & Hr0 & Hej & Hrj & Hall)].
    + left. split_and!; [done | done |].
      intros k r' Hk Hek Hrk.
      destruct (decide (k = i)) as [->|?]; [done|apply (Hall k r'); [lia | done | done]].
    + right. exists j, r0. split_and!; [lia | done | done | done | done | done |].
      intros k r' Hk Hek Hrk.
      destruct (decide (k = i)) as [->|?]; [done|].
      destruct (Hall k r') as [? Hkj]; [lia | done | done |]. done.
Qed.

(** The scan of a well-formed state never panics and ends in a candidate
    that satisfies the invariant for the whole table. *)
Lemma sjf_scan_spec st :
  length (SJF.RemainingBurst st) = length (SJF.processes st) ->
  exists c, SJF.scan st = Some c /\ sjf_scan_inv st (length (SJF.processes st)) c.
Proof.
  intros Hlen. unfold SJF.scan.
  apply (for_range_inv (SJF.scan_body st) (sjf_scan_inv st)
           (length (SJF.processes st)) 0).
  - left. split_and!; [done | done |]. intros; lia.
  - intros j c Hj. apply sjf_scan_body_inv; [done | lia].
Qed.

(** The process the scan selects is the one whose remaining burst the tick
    consumes. *)
Lemma SJF_body_runs_selected select st st' (j : nat) r :
  select st = Some (Z.of_nat j) ->
  SJF.RemainingBurst st !! j = Some r ->
  SJF.body select st = Some st' ->
  SJF.RemainingBurst st' = <[j := Int64.sub r 1]> (SJF.RemainingBurst st).
Proof.
  intros Hsel Hr. unfold SJF.body. rewrite Hsel. simpl.
  destruct (SJF.close_slice (Z.of_nat j) st) as [st1|] eqn:E1; [|done]. simpl.
  apply close_slice_frame in E1 as (_ & Hrem & _).
  unfold SJF.account. rewrite decide_False by lia.
  rewrite Hrem, (lookupZ_of_nat (SJF.RemainingBurst st)), Hr. simpl.
  destruct (storeZ (SJF.RemainingBurst st) (Z.of_nat j) (Int64.sub r 1))
    as [rem|] eqn:Es; [|done].
  simpl. apply storeZ_Some in Es as (j' & Hj' & _ & ->).
  apply Nat2Z.inj in Hj' as <-.
  intros H. case_decide; simplify_option_eq; done.
Qed.

(** In a state of the SJF tick loop in which some eligible process has a
    remaining burst of at most 100000, the value that seeds the scan, the
    scan selects an eligible process with the least remaining burst among
    all eligible processes, the last such process in table order, and that
    process is the one whose remaining burst the tick decrements. *)
Lemma SJF_selects_shortest_within_sentinel (st : SJF.state) :
  length (SJF.RemainingBurst st) = length (SJF.processes st) ->
  (exists i r, SJF.eligible st i /\ SJF.RemainingBurst st !! i = Some r /\
               r <= 100000) ->
  exists (j : nat) (r : Z),
    SJF.select st = Some (Z.of_nat j) /\
    SJF.eligible st j /\
    SJF.RemainingBurst st !! j = Some r /\
    (forall k r', SJF.eligible st k -> SJF.RemainingBurst st !! k = Some r' ->
                  r <= r' /\ (r' = r -> (k <= j)%nat)) /\
    (forall st', SJF.body SJF.select st = Some st' ->
                 SJF.RemainingBurst st' = <[j := Int64.sub r 1]> (SJF.RemainingBurst st)).
Proof.
  intros Hlen (i & ri & Hei & Hri & Hle).
  destruct (sjf_scan_spec st Hlen) as (c & Hscan & Hinv).
  assert (Hi : (i < length (SJF.processes st))%nat).
  { rewrite <- Hlen. by eapply lookup_lt_Some. }
  destruct Hinv as [(_ & _ & Hall)|(j & r & Hj & Hidx & _ & _ & Hej & Hrj & Hall)].
  { specialize (Hall i ri Hi Hei Hri). lia. }
  assert (Hsel : SJF.select st = Some (Z.of_nat j)).
  { unfold SJF.select. rewrite Hscan. simpl. by rewrite Hidx. }
  exists j, r. split_and!; [done | done | done | |].
  - intros k r' Hek Hrk. apply Hall; [|done..].
    rewrite <- Hlen. by eapply lookup_lt_Some.
  - intros st'. by apply SJF_body_runs_selected.
Qed.

(** The state that SJF reaches on [fcfs_example] after two ticks: the
    first two processes are eligible with 3 units left each, the third has
    not arrived; the scan selects the second, the later one of the tie. *)
Lemma SJF_selects_shortest_within_sentinel_witness :
  let st := (SJF.SJFSchedule 2 fcfs_example).2 in
  SJF.RemainingBurst st = [3; 3; 2] /\ SJF.tick st = 2 /\
  SJF.select st = Some 1 /\
  exists (j : nat) (r : Z),
    SJF.select st = Some (Z.of_nat j) /\
    SJF.eligible st j /\
    SJF.RemainingBurst st !! j = Some r /\
    (forall k r', SJF.eligible st k -> SJF.RemainingBurst st !! k = Some r' ->
                  r <= r' /\ (r' = r -> (k <= j)%nat)) /\
    (forall st', SJF.body SJF.select st = Some st' ->
                 SJF.RemainingBurst st' = <[j := Int64.sub r 1]> (SJF.RemainingBurst st)).
Proof.
  split_and!; [reflexivity | reflexivity | reflexivity |].
  apply (SJF_selects_shortest_within_sentinel (SJF.SJFSchedule 2 fcfs_example).2).
  - reflexivity.
  - exists 0%nat, 3. split; [|split; [reflexivity | lia]].
    exists 3, (mkProcess 1 0 5 0).
    split; [reflexivity|]. split; [reflexivity|]. split; [lia|].
    vm_compute. discriminate.
Defined.

(** One more iteration of the tick loop. *)
Lemma SJF_loop_step select fuel st st' :
  SJF.tick st < SJF.totalBurstTime st ->
  SJF.body select st = Some st' ->
  SJF.loop select (S fuel) st = SJF.loop select fuel st'.
Proof.
  intros Ht Hb. simpl. rewrite decide_True by done. by rewrite Hb.
Qed.

(** On [long_burst_example] a tick on which nobody has run yet selects
    nobody either, and only moves the clock and the horizon. *)
Lemma SJF_long_burst_tick (t : Z) :
  0 <= t -> t + 100002 <= Int64.max_signed ->
  SJF.body SJF.select (long_burst_idle t) = Some (long_burst_idle (t + 1)).
Proof.
  intros H0 Hmax. unfold Int64.max_signed in Hmax.
  assert (Hsel : SJF.select (long_burst_idle t) = Some (-1)).
  { unfold SJF.select, SJF.scan. simpl. unfold SJF.scan_body. simpl.
    by rewrite decide_False by lia. }
  unfold SJF.body. rewrite Hsel. simpl.
  unfold SJF.close_slice. simpl.
  rewrite decide_False.
  2:{ intros [?|Heq]; [done|]. revert Heq. unfold Int64.sub, Int64.wrap.
      intros Heq. Z.div_mod_to_equations. lia. }
  simpl. unfold SJF.account. simpl. unfold long_burst_idle.
  do 2 f_equal; unfold Int64.add, Int64.wrap; Z.div_mod_to_equations; lia.
Qed.

(** SJF never runs the process of [long_burst_example]: however many ticks
    the loop is given (short of the overflow of the clock), it is still
    going, no work is done, and no row and no slice is written. *)
Lemma SJF_long_burst_idles (n : nat) (t : Z) :
  0 <= t -> t + Z.of_nat n + 100001 <= Int64.max_signed ->
  SJF.loop SJF.select n (long_burst_idle t)
  = (OutOfFuel, long_burst_idle (t + Z.of_nat n)).
Proof.
  revert t. induction n as [|n IH]; intros t H0 Hmax.
  - simpl. rewrite decide_True by lia. by rewrite Z.add_0_r.
  - rewrite (SJF_loop_step _ _ _ (long_burst_idle (t + 1))).
    + rewrite IH by lia. do 2 f_equal. lia.
    + simpl. lia.
    + apply SJF_long_burst_tick; lia.
Qed.

(** C2 fails on the code: in [long_burst_example] the only process is
    eligible at tick 0, so it is the eligible process of least remaining
    burst, yet the scan of SJF, seeded with a best burst of 100000, selects
    nobody.  The run never serves the process: after a thousand ticks the
    loop is still going with the burst untouched, the horizon moved on by a
    thousand, and no row and no slice written. *)
Theorem SJF_sentinel_hides_long_burst :
  exists st,
    SJF.init long_burst_example = Some st /\
    SJF.eligible st 0 /\
    SJF.RemainingBurst st !! 0%nat = Some 100001 /\
    SJF.scan st = Some (SJF.mkCandidate (-1) 100000) /\
    SJF.select st = Some (-1) /\
    ~ selects_shortest st /\
    SJF.SJFSchedule 1000 long_burst_example
    = (OutOfFuel,
       SJF.mkState long_burst_example [100001] 1000 101001 (-1) 0 [None] []).
Proof.
  eexists. split; [reflexivity|]. split_and!.
  - exists 100001, (mkProcess 1 0 100001 0). simpl.
    split; [reflexivity|]. split; [reflexivity|]. split; lia.
  - reflexivity.
  - vm_compute. reflexivity.
  - vm_compute. reflexivity.
  - intros H. destruct H as (j & r & Hsel & _).
    + exists 0%nat, 100001, (mkProcess 1 0 100001 0). simpl.
      split; [reflexivity|]. split; [reflexivity|]. split; lia.
    + match type of Hsel with
      | ?sel = _ => assert (Hnone : sel = Some (-1)) by (vm_compute; reflexivity)
      end.
      rewrite Hnone in Hsel. injection Hsel as Hsel. lia.
  - vm_compute. reflexivity.
Qed.

(** ** The scan of shortest-job-first with priorities *)

(** The scan step of SJF-Priority is the two-branch rule on eligible
    processes and the identity on the others. *)
Lemma SJFPriority_scan_body_rule
    (st : SJF.state) (i : nat) (c : SJFPriority.candidate) (r : Z) (p : Process) :
  SJF.RemainingBurst st !! i = Some r ->
  SJF.processes st !! i = Some p ->
  SJFPriority.scan_body st i c
  = Some (if decide (r > 0 /\ ArrivalTime p <= SJF.tick st)
          then two_branch_rule i p r c else c).
Proof.
  intros Hr Hp. unfold SJFPriority.scan_body, two_branch_rule.
  rewrite Hr. simpl.
  destruct (decide (r > 0)) as [Hpos|Hpos]; [|by rewrite decide_False by lia].
  rewrite Hp. simpl.
  destruct (decide (ArrivalTime p <= SJF.tick st)) as [Harr|Harr];
    [|by rewrite decide_False by lia].
  rewrite (decide_True (P := r > 0 /\ _)) by done.
  destruct (decide (Priority p < SJFPriority.ShortestJobPriority c)).
  - by rewrite decide_True by lia.
  - rewrite decide_False by lia. by case_decide.
Qed.

(** Where the scan step of the code is the one the specification words:
    on a process that has not run yet, whose remaining burst is its
    [BurstDuration], and on a process that does not beat the best
    priority.  Both replace on the burst branch without comparing
    priorities. *)
Lemma SJFPriority_scan_body_as_specified
    (st : SJF.state) (i : nat) (c : SJFPriority.candidate) (r : Z) (p : Process) :
  SJF.RemainingBurst st !! i = Some r ->
  SJF.processes st !! i = Some p ->
  r = BurstDuration p \/ ~ Priority p < SJFPriority.ShortestJobPriority c ->
  SJFPriority.scan_body st i c = spec_scan_body st i c.
Proof.
  intros Hr Hp Hsame. rewrite (SJFPriority_scan_body_rule st i c r p Hr Hp).
  unfold spec_scan_body. rewrite Hr. simpl.
  destruct (decide (r > 0)) as [Hpos|Hpos]; [|by rewrite decide_False by lia].
  rewrite Hp. simpl.
  destruct (decide (ArrivalTime p <= SJF.tick st)) as [Harr|Harr];
    [|by rewrite decide_False by lia].
  rewrite decide_True by done. f_equal.
  unfold two_branch_rule, spec_two_branch_rule.
  destruct (decide (Priority p < SJFPriority.ShortestJobPriority c)) as [Hlt|Hlt];
    [|done].
  destruct Hsame as [->|?]; done.
Qed.

(** C4 fails on the code: what the scan of SJF-Priority records as best
    burst on the priority branch is the original [BurstDuration] of the
    process, not its remaining burst.  On [stale_burst_example] the run
    reaches tick 3 with remaining bursts 2 and 3, both processes eligible.
    The scan takes the first process by priority and records 5 as best
    burst; the second, whose remaining burst 3 is not less than the best
    remaining burst 2, passes the test [3 < 5] and replaces it.  With the
    update the specification words, the first process stays the best.  The
    run of the code gives process 2 the ticks 3 to 6; the run with the
    specified update lets process 1 finish first. *)
Theorem SJFPriority_best_burst_not_remaining :
  exists st,
    SJFPriority.SJFPrioritySchedule 3 stale_burst_example = (OutOfFuel, st) /\
    SJF.tick st = 3 /\
    SJF.RemainingBurst st = [2; 3] /\
    SJF.eligible st 0 /\ SJF.eligible st 1 /\
    SJFPriority.scan_body st 0 (SJFPriority.mkCandidate 100000 (-1) 100000)
    = Some (SJFPriority.mkCandidate 1 0 5) /\
    SJFPriority.scan_body st 1 (SJFPriority.mkCandidate 1 0 5)
    = Some (SJFPriority.mkCandidate 2 1 3) /\
    SJFPriority.scan st = Some (SJFPriority.mkCandidate 2 1 3) /\
    SJFPriority.select st = Some 1 /\
    spec_scan st = Some (SJFPriority.mkCandidate 1 0 2) /\
    spec_select st = Some 0 /\
    SJF.gantt (SJFPriority.SJFPrioritySchedule 100 stale_burst_example).2
    = [mkTimeSlice 1 0 3; mkTimeSlice 2 3 6; mkTimeSlice 1 6 8] /\
    SJF.gantt (SJF.run spec_select 100 stale_burst_example).2
    = [mkTimeSlice 1 0 5; mkTimeSlice 2 5 8].
Proof.
  eexists. split; [vm_compute; reflexivity|]. split_and!.
  - reflexivity.
  - reflexivity.
  - exists 2, (mkProcess 1 0 5 1). simpl. split_and!; (reflexivity || lia).
  - exists 3, (mkProcess 2 3 3 2). simpl. split_and!; (reflexivity || lia).
  - vm_compute. reflexivity.
  - vm_compute. reflexivity.
  - vm_compute. reflexivity.
  - vm_compute. reflexivity.
  - vm_compute. reflexivity.
  - vm_compute. reflexivity.
  - vm_compute. reflexivity.
  - vm_compute. reflexivity.
Qed.

(** C3 fails on the code: on [priority_example] both processes are eligible
    at tick 0 and the first has the strictly lower priority value, yet the
    scan selects the second one (index 1), whose burst is shorter, and the
    whole run serves process 2 first. *)
Theorem SJFPriority_burst_overrides_priority :
  exists st,
    SJF.init priority_example = Some st /\
    SJF.eligible st 0 /\ SJF.eligible st 1 /\
    Priority <$> SJF.processes st = [1; 2] /\
    SJFPriority.select st = Some 1 /\
    SJFPriority.SJFPrioritySchedule 100 priority_example
    = (Finished,
       SJF.mkState priority_example [0; 0] 8 8 0 7
         [Some (mkRow 1 1 5 0 3 8 8); Some (mkRow 2 2 3 0 0 3 3)]
         [mkTimeSlice 2 0 3; mkTimeSlice 1 3 8]).
Proof.
  eexists. split; [reflexivity|]. split_and!.
  - exists 5, (mkProcess 1 0 5 1). simpl. split_and!; (reflexivity || lia).
  - exists 3, (mkProcess 2 0 3 2). simpl. split_and!; (reflexivity || lia).
  - reflexivity.
  - reflexivity.
  - vm_compute. reflexivity.
Qed.

(** ** Idle ticks and the last tick *)

(** When the last tick comes while no slice is open, closing the slice
    reads [processes[-1]]. *)
Lemma close_slice_final_tick_panics sji st :
  SJF.tick st = Int64.sub (SJF.totalBurstTime st) 1 ->
  SJF.lastGanttIndex st = -1 ->
  SJF.close_slice sji st = None.
Proof.
  intros Ht Hl. unfold SJF.close_slice.
  rewrite decide_True by auto. rewrite decide_True by done.
  by rewrite Hl.
Qed.

(** An idle tick that gets past the Gantt block does no work and extends
    the horizon by one; with no slice open it emits no slice. *)
Lemma SJF_idle_tick select st st' :
  select st = Some (-1) ->
  SJF.body select st = Some st' ->
  SJF.RemainingBurst st' = SJF.RemainingBurst st /\
  SJF.schedule st' = SJF.schedule st /\
  SJF.tick st' = Int64.add (SJF.tick st) 1 /\
  SJF.totalBurstTime st' = Int64.add (SJF.totalBurstTime st) 1 /\
  (SJF.lastGanttIndex st = -1 ->
   SJF.gantt st' = SJF.gantt st /\ SJF.lastGanttIndex st' = -1).
Proof.
  intros Hsel. unfold SJF.body. rewrite Hsel. simpl.
  destruct (SJF.close_slice (-1) st) as [st1|] eqn:E1; [|done]. simpl.
  pose proof (close_slice_frame _ _ _ E1) as (_ & Hrem & Htick & Htot & Hsch).
  unfold SJF.account. rewrite decide_True by done. intros [= <-]. simpl.
  rewrite Hrem, Hsch, Htick, Htot. split_and!; [done..|].
  intros Hl. unfold SJF.close_slice in E1. rewrite Hl in E1.
  destruct (decide (SJF.tick st = Int64.sub (SJF.totalBurstTime st) 1)) as [Ht|Ht].
  - rewrite decide_True in E1 by auto. done.
  - rewrite decide_False in E1 by (intros [?|?]; done).
    injection E1 as <-. done.
Qed.

(** With no eligible process the scans select nobody. *)
Lemma SJF_select_idle st :
  length (SJF.RemainingBurst st) = length (SJF.processes st) ->
  (forall i, ~ SJF.eligible st i) ->
  SJF.select st = Some (-1).
Proof.
  intros Hlen Hnone.
  destruct (sjf_scan_spec st Hlen) as (c & Hscan & Hinv).
  unfold SJF.select. rewrite Hscan. simpl.
  destruct Hinv as [(-> & _)|(j & r & _ & _ & _ & _ & Hej & _)]; [done|].
  by destruct (Hnone j).
Qed.

Lemma SJFPriority_select_idle st :
  length (SJF.RemainingBurst st) = length (SJF.processes st) ->
  (forall i, ~ SJF.eligible st i) ->
  SJFPriority.select st = Some (-1).
Proof.
  intros Hlen Hnone. unfold SJFPriority.select, SJFPriority.scan.
  set (c0 := SJFPriority.mkCandidate 100000 (-1) 100000).
  destruct (for_range_inv (SJFPriority.scan_body st) (fun _ c => c = c0)
              (length (SJF.processes st)) 0 c0) as (c & -> & ->); [done | | done].
  intros j c [_ Hj] ->. simpl in Hj.
  destruct (lookup_lt_is_Some_2 (SJF.processes st) j Hj) as [p Hp].
  destruct (lookup_lt_is_Some_2 (SJF.RemainingBurst st) j) as [r Hr]; [lia|].
  exists c0. split; [|done].
  rewrite (SJFPriority_scan_body_rule st j c0 r p Hr Hp).
  rewrite decide_False; [done|].
  intros [? ?]. apply (Hnone j). by exists r, p.
Qed.

(** C6 fails on the code: on the well-formed table of one process with
    burst 1 and arrival 0 the first tick is also the last one
    ([tick = totalBurstTime - 1]) while [lastGanttIndex] is still [-1], so
    closing the slice reads [processes[-1]] and both tick-driven schedulers
    panic. *)
Theorem SJF_single_unit_burst_panics :
  (exists st,
     SJF.init [mkProcess 1 0 1 0] = Some st /\
     SJF.tick st = Int64.sub (SJF.totalBurstTime st) 1 /\
     SJF.lastGanttIndex st = -1 /\
     lookupZ (SJF.processes st) (SJF.lastGanttIndex st) = None /\
     SJF.select st = Some 0 /\
     SJF.close_slice 0 st = None) /\
  (forall fuel, (SJF.SJFSchedule (S fuel) [mkProcess 1 0 1 0]).1 = Panicked) /\
  (forall fuel,
     (SJFPriority.SJFPrioritySchedule (S fuel) [mkProcess 1 0 1 0]).1 = Panicked).
Proof.
  split_and!.
  - eexists. split; [reflexivity|].
    split_and!; [reflexivity.. | by apply close_slice_final_tick_panics].
  - intros fuel. reflexivity.
  - intros fuel. reflexivity.
Qed.

(** C7 fails on the code: on the table of one process with burst 1 that
    arrives at 5, no process is eligible at tick 0 and both scans select
    nobody, but the tick is also the last one of the horizon, so the Gantt
    block reads [processes[-1]] and the run panics in its first tick: the
    horizon stays at 1 instead of growing by the five idle ticks. *)
Theorem SJF_idle_first_tick_panics :
  exists st,
    SJF.init [mkProcess 1 5 1 0] = Some st /\
    (forall i, ~ SJF.eligible st i) /\
    SJF.select st = Some (-1) /\
    SJFPriority.select st = Some (-1) /\
    SJF.body SJF.select st = None /\
    SJF.body SJFPriority.select st = None /\
    SJF.totalBurstTime st = 1 /\
    (forall fuel, SJF.SJFSchedule (S fuel) [mkProcess 1 5 1 0] = (Panicked, st)) /\
    (forall fuel,
       SJFPriority.SJFPrioritySchedule (S fuel) [mkProcess 1 5 1 0] = (Panicked, st)).
Proof.
  eexists. split; [reflexivity|]. split_and!; try reflexivity.
  intros i (r & p & Hr & Hp & Hpos & Harr).
  destruct i as [|i]; simpl in *; [|done].
  simplify_eq. simpl in *. lia.
Qed.

(** ** Work accounting of the tick loop *)

Lemma total_nonneg l : (forall i x, l !! i = Some x -> 0 <= x) -> 0 <= total l.
Proof.
  induction l as [|a l IH]; simpl; intros H; [done|].
  pose proof (H 0%nat a eq_refl).
  assert (0 <= total l) by (apply IH; intros i x Hx; apply (H (S i) x Hx)).
  unfold total in *. lia.
Qed.

Lemma total_lookup_le l j r :
  (forall i x, l !! i = Some x -> 0 <= x) -> l !! j = Some r -> r <= total l.
Proof.
  revert j. induction l as [|a l IH]; intros j H Hj; [done|].
  pose proof (H 0%nat a eq_refl).
  assert (0 <= total l) by (apply total_nonneg; intros i x Hx; apply (H (S i) x Hx)).
  destruct j as [|j]; simpl in *.
  - simplify_eq. unfold total in *. lia.
  - assert (r <= total l)
      by (apply (IH j); [intros i x Hx; apply (H (S i) x Hx) | done]).
    unfold total in *. lia.
Qed.

Lemma total_insert l j r x :
  l !! j = Some r -> total (<[j := x]> l) = total l - r + x.
Proof.
  revert j. induction l as [|a l IH]; intros j Hj; [done|].
  destruct j as [|j]; simpl in *.
  - simplify_eq. unfold total. lia.
  - specialize (IH j Hj). unfold total in *. lia.
Qed.

Lemma total_positive_lookup l :
  (forall i x, l !! i = Some x -> 0 <= x) -> 0 < total l ->
  exists j r, l !! j = Some r /\ 0 < r.
Proof.
  induction l as [|a l IH]; simpl; intros H Hpos; [unfold total in Hpos; simpl in Hpos; lia|].
  destruct (decide (0 < a)) as [Ha|Ha]; [by exists 0%nat, a|].
  pose proof (H 0%nat a eq_refl).
  destruct IH as (j & r & Hj & Hr).
  - intros i x Hx. apply (H (S i) x Hx).
  - unfold total in *. simpl in Hpos. lia.
  - by exists (S j), r.
Qed.

Lemma total_zero_lookup l j r :
  (forall i x, l !! i = Some x -> 0 <= x) -> total l <= 0 -> l !! j = Some r -> r = 0.
Proof.
  intros H Hz Hj. pose proof (total_lookup_le l j r H Hj). pose proof (H j r Hj). lia.
Qed.

Lemma nonneg_table_lookup procs i p :
  nonneg_table procs -> procs !! i = Some p ->
  0 <= ArrivalTime p /\ 0 <= BurstDuration p.
Proof. intros H Hp. by apply (Forall_lookup_1 _ _ _ _ H Hp). Qed.

Lemma total_burst_take_le procs i :
  nonneg_table procs -> 0 <= total_burst (take i procs) <= total_burst procs.
Proof.
  unfold total_burst, total. intros H. revert i.
  induction H as [|p procs [_ Hp] _ IH]; intros i; [by destruct i|].
  destruct i as [|i]; csimpl.
  - specialize (IH 0%nat). rewrite take_0 in IH. csimpl in IH. lia.
  - specialize (IH i). lia.
Qed.

Lemma total_app l k : total (l ++ k) = total l + total k.
Proof. unfold total. induction l as [|x l IH]; simpl; [done | rewrite IH; lia]. Qed.

(** Without overflow [service_so_far] is the plain sum of the bursts. *)
Lemma service_so_far_plain procs i :
  nonneg_table procs -> total_burst procs <= Int64.max_signed ->
  service_so_far procs i = total_burst (take i procs).
Proof.
  intros Hnn Hmax. induction i as [|i IH]; [done|].
  destruct (procs !! i) as [p|] eqn:Hp.
  - rewrite (service_so_far_S _ _ _ Hp), IH.
    pose proof (total_burst_take_le procs (S i) Hnn) as Hle.
    pose proof (total_burst_take_le procs i Hnn) as Hle'.
    rewrite (take_S_r _ _ _ Hp). rewrite (take_S_r _ _ _ Hp) in Hle.
    unfold total_burst in *. rewrite fmap_app, total_app in *.
    change (total (BurstDuration <$> [p])) with (BurstDuration p + 0) in *.
    rewrite Z.add_0_r in *.
    unfold Int64.add. apply wrap_small.
    unfold Int64.in_range, Int64.min_signed, Int64.max_signed in *. lia.
  - apply lookup_ge_None in Hp.
    unfold service_so_far in *. rewrite !take_ge in * by lia. done.
Qed.

Lemma storeZ_of_nat {A} (l : list A) (j : nat) x :
  (j < length l)%nat -> storeZ l (Z.of_nat j) x = Some (<[j := x]> l).
Proof.
  intros Hj. unfold storeZ. rewrite decide_True by lia.
  rewrite Nat2Z.id. by apply store_lt.
Qed.

Lemma work_entry_mono t t' p r o :
  work_entry t p r o -> t <= t' -> work_entry t' p r o.
Proof.
  intros (H1 & H2 & H3 & H4) Ht. unfold work_entry.
  split_and!; [lia | lia | | done |].
  - intros Hr. specialize (H2 Hr). lia.
  - intros row Hrow. destruct (H4 row Hrow) as [? ?]. split; [done | lia].
Qed.

Lemma sjf_work_inv_nonneg procs st i x :
  sjf_work_inv procs st -> SJF.RemainingBurst st !! i = Some x -> 0 <= x.
Proof.
  intros (Hp & Hlr & Hls & _ & _ & _ & Hent) Hx.
  pose proof (lookup_lt_Some _ _ _ Hx) as Hi.
  destruct (lookup_lt_is_Some_2 procs i) as [p Hpi]; [lia|].
  destruct (lookup_lt_is_Some_2 (SJF.schedule st) i) as [o Ho]; [lia|].
  destruct (Hent i p x o Hpi Hx Ho) as ((? & _) & _). done.
Qed.

Lemma sjf_work_inv_init procs st :
  nonneg_table procs -> total_burst procs <= Int64.max_signed ->
  SJF.init procs = Some st -> sjf_work_inv procs st.
Proof.
  intros Hnn Hmax. rewrite SJF_init_spec. intros [= <-].
  unfold sjf_work_inv; simpl.
  rewrite length_fmap, length_replicate.
  split_and!; [done | done | done | done | | done |].
  - rewrite (service_so_far_plain _ _ Hnn Hmax), firstn_all. unfold total_burst. lia.
  - intros i p r o Hp Hr Ho.
    rewrite list_lookup_fmap, Hp in Hr. simpl in Hr. injection Hr as <-.
    apply lookup_replicate in Ho as [-> _].
    destruct (nonneg_table_lookup _ _ _ Hnn Hp) as [_ Hb].
    unfold work_entry. split_and!; [lia | lia | lia | lia | done].
Qed.

(** One tick on a state that obeys the work accounting: the state after it
    obeys it too, the clock advanced by one, and the tick was either idle or
    took one unit off the work that is left. *)
Lemma sjf_work_body select procs st st' :
  nonneg_table procs -> selects_eligible select ->
  sjf_work_inv procs st ->
  SJF.tick st + total_burst procs < Int64.max_signed ->
  SJF.body select st = Some st' ->
  sjf_work_inv procs st' /\ SJF.tick st' = SJF.tick st + 1 /\
  ((select st = Some (-1) /\ SJF.RemainingBurst st' = SJF.RemainingBurst st) \/
   total (SJF.RemainingBurst st') = total (SJF.RemainingBurst st) - 1).
Proof.
  intros Hnn Hsel Hinv Hbound Hbody.
  pose proof (sjf_work_inv_nonneg procs st) as Hrnn. specialize (Hrnn).
  destruct Hinv as (Hp & Hlr & Hls & Ht & Htot & Hle & Hent).
  assert (Hrem0 : forall i x, SJF.RemainingBurst st !! i = Some x -> 0 <= x).
  { intros i x. apply Hrnn. by split_and!. }
  clear Hrnn. pose proof (total_nonneg _ Hrem0) as Htnn.
  destruct (Hsel st) as (sji & Hs & Hcase); [congruence|].
  unfold SJF.body in Hbody. rewrite Hs in Hbody. simpl in Hbody.
  destruct (SJF.close_slice sji st) as [st1|] eqn:E1; [|done]. simpl in Hbody.
  apply close_slice_frame in E1 as (Hp1 & Hr1 & Ht1 & Htot1 & Hs1).
  unfold Int64.max_signed in Hbound.
  assert (Htick : Int64.add (SJF.tick st) 1 = SJF.tick st + 1).
  { unfold Int64.add. apply wrap_small.
    unfold Int64.in_range, Int64.min_signed, Int64.max_signed. lia. }
  unfold SJF.account in Hbody. rewrite Hp1, Hr1, Ht1, Htot1, Hs1, Htick in Hbody.
  destruct Hcase as [->|(j & -> & Hej)].
  - (* idle *)
    rewrite decide_True in Hbody by done. injection Hbody as <-. simpl.
    assert (Int64.add (SJF.totalBurstTime st) 1 = SJF.totalBurstTime st + 1) as ->.
    { unfold Int64.add. apply wrap_small.
      unfold Int64.in_range, Int64.min_signed, Int64.max_signed. lia. }
    split; [|split; [done | by left]].
    unfold sjf_work_inv; simpl. split_and!; [done | done | done | lia | lia | done |].
    intros i p r o Hpi Hri Hoi.
    apply (work_entry_mono (SJF.tick st)); [by eapply Hent | lia].
  - (* the process at [j] runs *)
    destruct Hej as (r & p & Hr & Hpj & Hrpos & Harr).
    rewrite Hp in Hpj.
    pose proof (lookup_lt_Some _ _ _ Hr) as Hj.
    destruct (lookup_lt_is_Some_2 (SJF.schedule st) j) as [o Ho]; [lia|].
    destruct (Hent j p r o Hpj Hr Ho) as ((_ & Hrb) & Hstart & _ & Hrows).
    destruct (nonneg_table_lookup _ _ _ Hnn Hpj) as [Ha Hb].
    pose proof (total_lookup_le _ _ _ Hrem0 Hr) as Hrt.
    assert (Hdec : Int64.sub r 1 = r - 1).
    { unfold Int64.sub. apply wrap_small.
      unfold Int64.in_range, Int64.min_signed, Int64.max_signed. lia. }
    rewrite decide_False in Hbody by lia.
    rewrite (lookupZ_of_nat (SJF.RemainingBurst st)), Hr in Hbody. simpl in Hbody.
    rewrite storeZ_of_nat in Hbody by done. simpl in Hbody.
    rewrite Hdec in Hbody.
    assert (Hstart' : ArrivalTime p + (BurstDuration p - (r - 1)) <= SJF.tick st + 1).
    { destruct (decide (r < BurstDuration p)) as [Hlt|Hge]; [specialize (Hstart Hlt)|]; lia. }
    assert (Htotal' : total (<[j := r - 1]> (SJF.RemainingBurst st))
                      = total (SJF.RemainingBurst st) - 1).
    { rewrite (total_insert _ _ _ _ Hr). lia. }
    destruct (decide (r - 1 = 0)) as [Hz|Hnz].
    + (* it finishes: its row is written *)
      rewrite Hp, (lookupZ_of_nat procs), Hpj in Hbody. simpl in Hbody.
      rewrite storeZ_of_nat in Hbody by lia. simpl in Hbody.
      injection Hbody as <-. simpl.
      split; [|split; [done | by right]].
      unfold sjf_work_inv; simpl. rewrite !length_insert, Htotal'.
      split_and!; [done | done | done | lia | lia | lia |].
      intros i q ri oi Hqi Hri Hoi.
      destruct (decide (i = j)) as [->|Hne].
      * rewrite list_lookup_insert_eq in Hri by lia.
        rewrite list_lookup_insert_eq in Hoi by lia.
        assert (q = p) as -> by congruence. simplify_eq.
        unfold work_entry. split_and!; [lia | lia | lia | by eexists |].
        intros row [= <-]. unfold finished_row, SJF.finish_row; simpl.
        assert (Int64.sub (SJF.tick st + 1) (ArrivalTime p)
                = SJF.tick st + 1 - ArrivalTime p) as ->.
        { unfold Int64.sub. apply wrap_small.
          unfold Int64.in_range, Int64.min_signed, Int64.max_signed. lia. }
        assert (Int64.sub (SJF.tick st + 1 - ArrivalTime p) (BurstDuration p)
                = SJF.tick st + 1 - ArrivalTime p - BurstDuration p) as ->.
        { unfold Int64.sub. apply wrap_small.
          unfold Int64.in_range, Int64.min_signed, Int64.max_signed. lia. }
        split_and!; [done | done | done | done | lia | lia | lia | lia].
      * rewrite list_lookup_insert_ne in Hri by done.
        rewrite list_lookup_insert_ne in Hoi by done.
        apply (work_entry_mono (SJF.tick st)); [by eapply Hent | lia].
    + (* it goes on *)
      injection Hbody as <-. simpl.
      split; [|split; [done | by right]].
      unfold sjf_work_inv; simpl. rewrite !length_insert, Htotal'.
      split_and!; [done | done | done | lia | lia | lia |].
      intros i q ri oi Hqi Hri Hoi.
      destruct (decide (i = j)) as [->|Hne].
      * rewrite list_lookup_insert_eq in Hri by lia.
        assert (q = p) as -> by congruence. assert (oi = o) as -> by congruence.
        simplify_eq.
        unfold work_entry. split_and!; [lia | lia | lia | lia |].
        intros row Hrow. destruct (Hrows row Hrow) as [? ?]. split; [done | lia].
      * rewrite list_lookup_insert_ne in Hri by done.
        apply (work_entry_mono (SJF.tick st)); [by eapply Hent | lia].
Qed.

(** The work accounting holds along the whole loop, as long as the clock
    has room for [fuel] more ticks. *)
Lemma sjf_work_loop select procs fuel :
  nonneg_table procs -> selects_eligible select ->
  forall st, sjf_work_inv procs st ->
    SJF.tick st + Z.of_nat fuel + total_burst procs <= Int64.max_signed ->
    sjf_work_inv procs (SJF.loop select fuel st).2 /\
    ((SJF.loop select fuel st).1 = Finished ->
     total (SJF.RemainingBurst (SJF.loop select fuel st).2) <= 0).
Proof.
  intros Hnn Hsel. induction fuel as [|fuel IH]; intros st Hinv Hbound; simpl.
  - case_decide as Hc; simpl; [done|]. split; [done|]. intros _.
    destruct Hinv as (_ & _ & _ & _ & Htot & _). lia.
  - case_decide as Hc; simpl.
    + destruct (SJF.body select st) as [st'|] eqn:Hb; [|done].
      destruct (sjf_work_body select procs st st') as (Hinv' & Ht' & _);
        [done | done | done | lia | done |].
      apply IH; [done | lia].
    + split; [done|]. intros _.
      destruct Hinv as (_ & _ & _ & _ & Htot & _). lia.
Qed.

Lemma sjf_work_run select procs fuel :
  nonneg_table procs -> selects_eligible select ->
  total_burst procs + Z.of_nat fuel <= Int64.max_signed ->
  sjf_work_inv procs (SJF.run select fuel procs).2 /\
  ((SJF.run select fuel procs).1 = Finished ->
   total (SJF.RemainingBurst (SJF.run select fuel procs).2) <= 0).
Proof.
  intros Hnn Hsel Hbound. unfold SJF.run.
  destruct (SJF.init procs) as [st|] eqn:Hinit.
  - assert (Hinv : sjf_work_inv procs st).
    { apply sjf_work_inv_init; [done | lia | done]. }
    apply sjf_work_loop; [done | done | done |].
    rewrite SJF_init_spec in Hinit. injection Hinit as <-. simpl. lia.
  - by rewrite SJF_init_spec in Hinit.
Qed.

Lemma sjf_work_accounted select procs fuel :
  nonneg_table procs -> selects_eligible select ->
  total_burst procs + Z.of_nat fuel <= Int64.max_signed ->
  work_accounted procs (SJF.run select fuel procs) /\
  rows_finished procs (SJF.run select fuel procs).2.
Proof.
  intros Hnn Hsel Hbound.
  destruct (sjf_work_run select procs fuel Hnn Hsel Hbound) as [Hinv Hfin].
  set (res := SJF.run select fuel procs) in *.
  pose proof (sjf_work_inv_nonneg procs res.2) as Hrnn.
  assert (Hrem0 : forall i x, SJF.RemainingBurst res.2 !! i = Some x -> 0 <= x).
  { intros i x. by apply Hrnn. }
  destruct Hinv as (Hp & Hlr & Hls & Ht & Htot & Hle & Hent).
  split.
  - unfold work_accounted. split; [done|]. split.
    { apply Forall_lookup_2. intros i x. apply Hrem0. }
    intros Hf. specialize (Hfin Hf). split.
    + apply Forall_lookup_2. intros i x Hx.
      by apply (total_zero_lookup _ i x Hrem0 Hfin).
    + apply Forall2_same_length_lookup_2; [lia|].
      intros i p o Hpi Hoi Hpos.
      destruct (lookup_lt_is_Some_2 (SJF.RemainingBurst res.2) i) as [r Hr].
      { rewrite Hlr. by eapply lookup_lt_Some. }
      destruct (Hent i p r o Hpi Hr Hoi) as (_ & _ & Hrow & _).
      apply Hrow; [|done]. by apply (total_zero_lookup _ i r Hrem0 Hfin).
  - unfold rows_finished. apply Forall2_same_length_lookup_2; [lia|].
    intros i p o Hpi Hoi row ->.
    destruct (lookup_lt_is_Some_2 (SJF.RemainingBurst res.2) i) as [r Hr].
    { rewrite Hlr. by eapply lookup_lt_Some. }
    destruct (Hent i p r _ Hpi Hr Hoi) as (_ & _ & _ & Hrows). by apply Hrows.
Qed.

(** The two scans never panic on a well-formed state and select [-1] or an
    eligible process. *)
Lemma SJF_select_eligible : selects_eligible SJF.select.
Proof.
  intros st Hlen.
  destruct (sjf_scan_spec st Hlen) as (c & Hscan & Hinv).
  exists (SJF.ShortestJobIndex c). unfold SJF.select. rewrite Hscan. split; [done|].
  destruct Hinv as [(-> & _)|(j & r & _ & -> & _ & _ & Hej & _)]; [by left|].
  right. by exists j.
Qed.

Lemma sjfp_scan_spec st :
  length (SJF.RemainingBurst st) = length (SJF.processes st) ->
  exists c, SJFPriority.scan st = Some c /\
            sjfp_scan_inv st (length (SJF.processes st)) c.
Proof.
  intros Hlen. unfold SJFPriority.scan.
  apply (for_range_inv (SJFPriority.scan_body st) (sjfp_scan_inv st)
           (length (SJF.processes st)) 0).
  - left. split; [done|]. intros; lia.
  - intros i c [_ Hi] Hinv. simpl in Hi.
    destruct (lookup_lt_is_Some_2 (SJF.processes st) i Hi) as [p Hp].
    destruct (lookup_lt_is_Some_2 (SJF.RemainingBurst st) i) as [r Hr]; [lia|].
    pose proof (eligible_lookup st i r p Hr Hp) as Hel.
    rewrite (SJFPriority_scan_body_rule st i c r p Hr Hp).
    eexists. split; [reflexivity|].
    destruct (decide (r > 0 /\ ArrivalTime p <= SJF.tick st)) as [He|He].
    + apply Hel in He. unfold two_branch_rule.
      destruct (decide (Priority p < SJFPriority.ShortestJobPriority c)) as [Hpr|Hpr];
        [right; exists i; simpl; split_and!; [lia | done | done]|].
      destruct (decide (r < SJFPriority.ShortestJobBurst c)) as [Hbr|Hbr];
        [right; exists i; simpl; split_and!; [lia | done | done]|].
      destruct Hinv as [(-> & Hall)|(j & Hj & Hidx & Hej)].
      * left. split; [done|]. simpl in Hpr, Hbr.
        intros k q rk Hk Hq Hrk Hek.
        destruct (decide (k = i)) as [->|Hne]; [simplify_eq; lia|].
        apply (Hall k q rk); [lia | done..].
      * right. exists j. split_and!; [lia | done | done].
    + destruct Hinv as [(-> & Hall)|(j & Hj & Hidx & Hej)].
      * left. split; [done|].
        intros k q rk Hk Hq Hrk Hek.
        destruct (decide (k = i)) as [->|Hne]; [by apply Hel in Hek|].
        apply (Hall k q rk); [lia | done..].
      * right. exists j. split_and!; [lia | done | done].
Qed.

Lemma SJFPriority_select_eligible : selects_eligible SJFPriority.select.
Proof.
  intros st Hlen.
  destruct (sjfp_scan_spec st Hlen) as (c & Hscan & Hinv).
  exists (SJFPriority.ShortestJobIndex c).
  unfold SJFPriority.select. rewrite Hscan. split; [done|].
  destruct Hinv as [(-> & _)|(j & _ & -> & Hej)]; [by left|].
  right. by exists j.
Qed.

(** X1: on a table of non-negative arrivals and bursts, and as long as the
    clock cannot overflow, both tick-driven schedulers keep
    [totalBurstTime = tick + the work left], never drive a remaining burst
    below zero, and a run that finishes has served every process in full
    and written a row for each process of positive burst. *)
Theorem SJF_work_conservation (procs : list Process) (fuel : nat) :
  nonneg_table procs ->
  total_burst procs + Z.of_nat fuel <= Int64.max_signed ->
  work_accounted procs (SJF.SJFSchedule fuel procs) /\
  work_accounted procs (SJFPriority.SJFPrioritySchedule fuel procs).
Proof.
  intros Hnn Hbound. split.
  - apply (sjf_work_accounted SJF.select); auto using SJF_select_eligible.
  - apply (sjf_work_accounted SJFPriority.select);
      auto using SJFPriority_select_eligible.
Qed.

Lemma SJF_work_conservation_witness :
  work_accounted fcfs_example (SJF.SJFSchedule 10 fcfs_example) /\
  work_accounted fcfs_example (SJFPriority.SJFPrioritySchedule 10 fcfs_example).
Proof.
  apply (SJF_work_conservation fcfs_example 10).
  - repeat constructor; simpl; lia.
  - vm_compute. discriminate.
Defined.

(** X2: under the same conditions every row the tick-driven schedulers
    write reports a waiting time that is not negative, with
    Exit = Arrival + Wait + Burst and Turnaround = Wait + Burst in the
    integers, and an exit time no later than the clock. *)
Theorem SJF_rows_nonneg_wait (procs : list Process) (fuel : nat) :
  nonneg_table procs ->
  total_burst procs + Z.of_nat fuel <= Int64.max_signed ->
  rows_finished procs (SJF.SJFSchedule fuel procs).2 /\
  rows_finished procs (SJFPriority.SJFPrioritySchedule fuel procs).2.
Proof.
  intros Hnn Hbound. split.
  - apply (sjf_work_accounted SJF.select); auto using SJF_select_eligible.
  - apply (sjf_work_accounted SJFPriority.select);
      auto using SJFPriority_select_eligible.
Qed.

Lemma SJF_rows_nonneg_wait_witness :
  rows_finished fcfs_example (SJF.SJFSchedule 10 fcfs_example).2 /\
  rows_finished fcfs_example (SJFPriority.SJFPrioritySchedule 10 fcfs_example).2.
Proof.
  apply (SJF_rows_nonneg_wait fcfs_example 10).
  - repeat constructor; simpl; lia.
  - vm_compute. discriminate.
Defined.

(** ** The tick loop ends *)

(** More fuel changes nothing once the loop has ended. *)
Lemma sjf_loop_fuel_more select f k : forall st,
  (SJF.loop select f st).1 <> OutOfFuel ->
  SJF.loop select (f + k) st = SJF.loop select f st.
Proof.
  induction f as [|f IH]; intros st Hend; simpl in *.
  - case_decide; [done|]. destruct k; simpl; by rewrite decide_False.
  - case_decide; [|done].
    destruct (SJF.body select st) as [st'|]; [by apply IH | done].
Qed.

(** With a scan that makes progress, each tick takes one off the work left
    or off the wait for the latest arrival, so the loop has ended when the
    fuel covers both. *)
Lemma sjf_loop_ends select procs latest fuel :
  nonneg_table procs -> selects_eligible select -> makes_progress procs select ->
  Forall (fun p => ArrivalTime p <= latest) procs ->
  forall st, sjf_work_inv procs st ->
    SJF.tick st + Z.of_nat fuel + total_burst procs <= Int64.max_signed ->
    total (SJF.RemainingBurst st) + Z.max 0 (latest - SJF.tick st) <= Z.of_nat fuel ->
    (SJF.loop select fuel st).1 <> OutOfFuel.
Proof.
  intros Hnn Hsel Hprog Harr.
  induction fuel as [|fuel IH]; intros st Hinv Hbound Hmu; simpl.
  - case_decide as Hc; [|done].
    destruct Hinv as (_ & _ & _ & _ & Htot & _). lia.
  - case_decide as Hc; [|done].
    destruct (SJF.body select st) as [st'|] eqn:Hb; [|done].
    destruct (sjf_work_body select procs st st') as (Hinv' & Ht' & Hcase);
      [done | done | done | lia | done |].
    apply IH; [done | lia |]. rewrite Ht'.
    destruct Hcase as [[Hidle Hrem]|Hwork]; [|lia].
    rewrite Hrem.
    assert (SJF.tick st < latest); [|lia].
    destruct (decide (SJF.tick st < latest)) as [|Hlate]; [done|]. exfalso.
    apply (Hprog st Hinv); [|done].
    pose proof (fun i x => sjf_work_inv_nonneg procs st i x Hinv) as Hrnn.
    destruct Hinv as (Hp & Hlr & Hls & _ & Htot & _).
    destruct (total_positive_lookup (SJF.RemainingBurst st)) as (j & r & Hr & Hpos);
      [intros i x; apply Hrnn | lia |].
    destruct (lookup_lt_is_Some_2 procs j) as [p Hpj].
    { rewrite <- Hlr. by eapply lookup_lt_Some. }
    pose proof (Forall_lookup_1 _ _ _ _ Harr Hpj) as Ha. simpl in Ha.
    exists j, r, p. rewrite Hp. split_and!; [done | done | lia | lia].
Qed.

Lemma SJF_select_progress procs :
  Forall (fun p => BurstDuration p <= 100000) procs ->
  makes_progress procs SJF.select.
Proof.
  intros Hb st Hinv (i & r & p & Hr & Hp & Hpos & Ha).
  destruct Hinv as (Hprocs & Hlr & Hls & _ & _ & _ & Hent).
  destruct (sjf_scan_spec st) as (c & Hscan & Hsinv); [congruence|].
  unfold SJF.select. rewrite Hscan. simpl.
  destruct Hsinv as [(_ & _ & Hall)|(j & r0 & _ & -> & _)]; [|intros [=]; lia].
  exfalso.
  pose proof (lookup_lt_Some _ _ _ Hp) as Hi.
  assert (100000 < r).
  { apply (Hall i r); [done | by exists r, p | done]. }
  rewrite Hprocs in Hp, Hi.
  destruct (lookup_lt_is_Some_2 (SJF.schedule st) i) as [o Ho]; [lia|].
  destruct (Hent i p r o Hp Hr Ho) as ((_ & Hle) & _).
  pose proof (Forall_lookup_1 _ _ _ _ Hb Hp) as Hb'. simpl in Hb'. lia.
Qed.

Lemma SJFPriority_select_progress procs :
  Forall (fun p => Priority p < 100000 \/ BurstDuration p < 100000) procs ->
  makes_progress procs SJFPriority.select.
Proof.
  intros Hb st Hinv (i & r & p & Hr & Hp & Hpos & Ha).
  destruct Hinv as (Hprocs & Hlr & Hls & _ & _ & _ & Hent).
  destruct (sjfp_scan_spec st) as (c & Hscan & Hsinv); [congruence|].
  unfold SJFPriority.select. rewrite Hscan. simpl.
  destruct Hsinv as [(_ & Hall)|(j & _ & -> & _)]; [|intros [=]; lia].
  exfalso.
  pose proof (lookup_lt_Some _ _ _ Hp) as Hi.
  destruct (Hall i p r) as [Hpr Hbr]; [done | done | done | by exists r, p |].
  rewrite Hprocs in Hp, Hi.
  destruct (lookup_lt_is_Some_2 (SJF.schedule st) i) as [o Ho]; [lia|].
  destruct (Hent i p r o Hp Hr Ho) as ((_ & Hle) & _).
  pose proof (Forall_lookup_1 _ _ _ _ Hb Hp) as Hb'. simpl in Hb'. lia.
Qed.

Lemma sjf_run_ends select procs latest fuel :
  nonneg_table procs -> selects_eligible select -> makes_progress procs select ->
  Forall (fun p => ArrivalTime p <= latest) procs -> 0 <= latest ->
  2 * total_burst procs + latest <= Int64.max_signed ->
  (horizon_bound procs latest <= fuel)%nat ->
  SJF.run select fuel procs = SJF.run select (horizon_bound procs latest) procs /\
  (SJF.run select (horizon_bound procs latest) procs).1 <> OutOfFuel.
Proof.
  intros Hnn Hsel Hprog Harr Hl Hmax Hfuel.
  assert (Htb : 0 <= total_burst procs).
  { pose proof (total_burst_take_le procs 0 Hnn). lia. }
  unfold Int64.max_signed in Hmax.
  assert (Hend : (SJF.run select (horizon_bound procs latest) procs).1 <> OutOfFuel).
  { unfold SJF.run. rewrite SJF_init_spec.
    apply (sjf_loop_ends select procs latest); [done..| | |].
    - apply sjf_work_inv_init; [done | unfold Int64.max_signed; lia |].
      apply SJF_init_spec.
    - simpl. unfold horizon_bound, Int64.max_signed. lia.
    - simpl. rewrite Z.sub_0_r. unfold horizon_bound, total_burst. lia. }
  split; [|done].
  replace fuel with (horizon_bound procs latest + (fuel - horizon_bound procs latest))%nat
    by lia.
  unfold SJF.run in *. rewrite SJF_init_spec in *.
  by apply sjf_loop_fuel_more.
Qed.

(** X3: a run of either tick-driven scheduler is over (finished or stopped
    by a panic) after at most [total burst + latest arrival] ticks, and more
    fuel does not change its result, provided that arrivals and bursts are
    not negative, that the scan's sentinels do not hide a process (bursts
    at most 100000 for SJF; priority or burst below 100000 for
    SJF-Priority) and that the clock cannot overflow. *)
Theorem SJF_run_ends (procs : list Process) (latest : Z) (fuel : nat) :
  nonneg_table procs ->
  Forall (fun p => ArrivalTime p <= latest) procs -> 0 <= latest ->
  2 * total_burst procs + latest <= Int64.max_signed ->
  (horizon_bound procs latest <= fuel)%nat ->
  (Forall (fun p => BurstDuration p <= 100000) procs ->
     SJF.SJFSchedule fuel procs
     = SJF.SJFSchedule (horizon_bound procs latest) procs /\
     (SJF.SJFSchedule (horizon_bound procs latest) procs).1 <> OutOfFuel) /\
  (Forall (fun p => Priority p < 100000 \/ BurstDuration p < 100000) procs ->
     SJFPriority.SJFPrioritySchedule fuel procs
     = SJFPriority.SJFPrioritySchedule (horizon_bound procs latest) procs /\
     (SJFPriority.SJFPrioritySchedule (horizon_bound procs latest) procs).1
     <> OutOfFuel).
Proof.
  intros Hnn Harr Hl Hmax Hfuel. split; intros Hs.
  - apply sjf_run_ends;
      auto using SJF_select_eligible, SJF_select_progress.
  - apply sjf_run_ends;
      auto using SJFPriority_select_eligible, SJFPriority_select_progress.
Qed.

Lemma SJF_run_ends_witness :
  (Forall (fun p => BurstDuration p <= 100000) fcfs_example ->
     SJF.SJFSchedule 20 fcfs_example
     = SJF.SJFSchedule (horizon_bound fcfs_example 4) fcfs_example /\
     (SJF.SJFSchedule (horizon_bound fcfs_example 4) fcfs_example).1 <> OutOfFuel) /\
  (Forall (fun p => Priority p < 100000 \/ BurstDuration p < 100000) fcfs_example ->
     SJFPriority.SJFPrioritySchedule 20 fcfs_example
     = SJFPriority.SJFPrioritySchedule (horizon_bound fcfs_example 4) fcfs_example /\
     (SJFPriority.SJFPrioritySchedule (horizon_bound fcfs_example 4) fcfs_example).1
     <> OutOfFuel).
Proof.
  apply (SJF_run_ends fcfs_example 4 20).
  - repeat constructor; simpl; lia.
  - repeat constructor; simpl; lia.
  - lia.
  - vm_compute. discriminate.
  - vm_compute. lia.
Defined.

(** ** Work accounting of round-robin *)

Lemma total_burst_insert (l : list Process) i q q' :
  l !! i = Some q ->
  total_burst (<[i := q']> l) = total_burst l - BurstDuration q + BurstDuration q'.
Proof.
  intros Hq. unfold total_burst. rewrite list_fmap_insert.
  apply total_insert. by rewrite list_lookup_fmap, Hq.
Qed.

Lemma lookup_mapped_prefix {A} (f : A -> A) (l : list A) i :
  ((f <$> take i l) ++ drop i l) !! i = l !! i.
Proof.
  destruct (decide (i < length l)%nat) as [Hi|Hi].
  - rewrite lookup_app_r; rewrite length_fmap, length_take; [|lia].
    replace (i - i `min` length l)%nat with 0%nat by lia.
    rewrite lookup_drop. by rewrite Nat.add_0_r.
  - rewrite take_ge, drop_ge, app_nil_r by lia.
    rewrite list_lookup_fmap. rewrite (lookup_ge_None_2 l i) by lia. done.
Qed.

Lemma insert_mapped_prefix {A} (f : A -> A) (l : list A) i x :
  l !! i = Some x ->
  <[i := f x]> ((f <$> take i l) ++ drop i l)
  = (f <$> take (S i) l) ++ drop (S i) l.
Proof.
  intros Hx. pose proof (lookup_lt_Some _ _ _ Hx) as Hi.
  rewrite (take_S_r _ _ _ Hx), fmap_app, <- app_assoc. simpl.
  rewrite (drop_S _ _ _ Hx).
  rewrite insert_app_r_alt; rewrite length_fmap, length_take; [|lia].
  by replace (i - i `min` length l)%nat with 0%nat by lia.
Qed.

(** What a visit does to the table and to the service time. *)
Lemma RR_visit_account st i q st' :
  Int64.in_range (RR.serviceTime st) ->
  RR.processes st !! i = Some q ->
  RR.visit i st = Some st' ->
  RR.processes st' = <[i := consume_quantum q]> (RR.processes st) /\
  RR.serviceTime st'
  = Int64.wrap (RR.serviceTime st + BurstDuration q
                - BurstDuration (consume_quantum q)).
Proof.
  intros Hsvc Hq. unfold RR.visit, consume_quantum. rewrite Hq. simpl.
  unfold Int64.in_range, Int64.min_signed, Int64.max_signed in Hsvc.
  destruct (decide (BurstDuration q >= RR.QuantumTime)) as [Hge|Hge].
  - unfold RR.serve. intros H. simplify_option_eq;
      (split; [by apply store_Some in Heqo3 as [_ ->] | int64_eq]).
  - destruct (decide (BurstDuration q < RR.QuantumTime /\ BurstDuration q > 0))
      as [Hlt|Hlt].
    + unfold RR.serve. intros H. simplify_option_eq;
        (split; [by apply store_Some in Heqo3 as [_ ->] | int64_eq]).
    + intros [= <-]. split; [|int64_eq].
      rewrite list_insert_id; [done|]. by destruct q.
Qed.

(** A pass visits every process once. *)
Lemma rr_pass_account procs st :
  rr_inv procs st -> rr_served procs st ->
  exists st', RR.pass st = Some st' /\ rr_inv procs st' /\ rr_served procs st' /\
              RR.processes st' = consume_quantum <$> RR.processes st.
Proof.
  intros Hinv Hsv. unfold RR.pass.
  assert (Hlen : length (RR.processes st) = length procs) by apply Hinv.
  set (P := RR.processes st) in *.
  destruct (for_range_inv RR.visit
              (fun i s => rr_inv procs s /\ rr_served procs s /\
                          RR.processes s = (consume_quantum <$> take i P) ++ drop i P)
              (length P) 0 st) as (st' & Hrun & Hi' & Hs' & Hp').
  - split_and!; [done | done |]. by rewrite take_0, drop_0.
  - intros j s [_ Hj] (His & Hss & Hps). simpl in Hj.
    destruct (rr_inv_visit procs j s) as (s' & q & Hv & His' & Hq & _); [lia | done |].
    assert (Hrange : Int64.in_range (RR.serviceTime s)) by apply His.
    destruct (RR_visit_account s j q s' Hrange Hq Hv) as [Hps' Hsvc'].
    assert (HqP : P !! j = Some q).
    { rewrite <- (lookup_mapped_prefix consume_quantum P j). by rewrite <- Hps. }
    exists s'. split_and!; [done | done | |].
    + unfold rr_served in *. rewrite Hsvc', Hps', (total_burst_insert _ _ _ _ Hq), Hss.
      int64_eq.
    + rewrite Hps', Hps. by apply insert_mapped_prefix.
  - exists st'. split_and!; [done | done | done |].
    rewrite Hp'. simpl. by rewrite firstn_all, drop_all, app_nil_r.
Qed.

Lemma rr_passes_account procs n : forall st,
  rr_inv procs st -> rr_served procs st ->
  exists st', RR.passes n st = Some st' /\ rr_inv procs st' /\ rr_served procs st' /\
              RR.processes st' = Nat.iter n consume_quantum <$> RR.processes st.
Proof.
  induction n as [|n IH]; intros st Hinv Hsv; simpl.
  - exists st. split_and!; [done..|]. by rewrite list_fmap_id.
  - destruct (rr_pass_account procs st Hinv Hsv) as (s1 & -> & Hi1 & Hs1 & Hp1). simpl.
    destruct (IH s1 Hi1 Hs1) as (s2 & Hr2 & Hi2 & Hs2 & Hp2).
    exists s2. split_and!; [done..|].
    rewrite Hp2, Hp1, <- list_fmap_compose.
    apply list_fmap_ext. intros i q _. simpl.
    change (consume_quantum (Nat.iter n consume_quantum q))
      with (Nat.iter (S n) consume_quantum q).
    by rewrite Nat.iter_succ_r.
Qed.

Lemma wrap_0 : Int64.wrap 0 = 0.
Proof. reflexivity. Qed.

(** [n] visits of a process whose burst is a 64-bit value. *)
Lemma consume_quantum_iter n p :
  BurstDuration p <= Int64.max_signed ->
  Nat.iter n consume_quantum p = left_after (Z.of_nat n) p.
Proof.
  intros Hmax. unfold Int64.max_signed in Hmax.
  induction n as [|n IH].
  - simpl. unfold left_after, RR.QuantumTime. destruct p as [pid arr b pri]; simpl in *.
    f_equal. case_decide; lia.
  - rewrite Nat.iter_succ, IH. unfold left_after, consume_quantum, RR.QuantumTime.
    simpl. f_equal.
    destruct (decide (0 <= BurstDuration p)) as [Hb|Hb].
    + set (cur := Z.max 0 (BurstDuration p - 3 * Z.of_nat n)).
      assert (Hcur : 0 <= cur <= BurstDuration p) by (subst cur; lia).
      destruct (decide (cur >= 3)) as [H3|H3].
      * unfold Int64.sub. rewrite wrap_small
          by (unfold Int64.in_range, Int64.min_signed, Int64.max_signed; lia).
        subst cur. lia.
      * destruct (decide (cur < 3 /\ cur > 0)) as [Hr|Hr].
        -- unfold Int64.sub. rewrite Z.sub_diag, wrap_0. subst cur. lia.
        -- subst cur. lia.
    + rewrite decide_False by lia. by rewrite decide_False by lia.
Qed.

Lemma rr_served_init procs : rr_served procs (RR.init procs).
Proof. unfold rr_served, RR.init; simpl. by rewrite Z.sub_diag. Qed.

(** The thousand passes: they go through, and the table, the service time
    and the end of the Gantt sequence are those of a thousand visits of
    each process. *)
Lemma RRSchedule_account procs :
  Forall (fun p => BurstDuration p <= Int64.max_signed) procs ->
  exists st, RR.RRSchedule procs = Some st /\ rr_inv procs st /\
    RR.processes st = left_after 1000 <$> procs /\
    chain_end 0 (RR.gantt st)
    = Int64.wrap (total_burst procs - total_burst (left_after 1000 <$> procs)).
Proof.
  intros Hmax.
  destruct (rr_passes_account procs 1000 (RR.init procs))
    as (st & Hrun & Hinv & Hsv & Hp); [apply rr_inv_init | apply rr_served_init |].
  assert (Hp' : RR.processes st = left_after 1000 <$> procs).
  { rewrite Hp. change (RR.processes (RR.init procs)) with procs.
    apply Forall_fmap_ext_1. apply Forall_forall. intros p Hin.
    rewrite Forall_forall in Hmax.
    exact (consume_quantum_iter 1000 p (Hmax p Hin)). }
  exists st. split_and!; [done | done | done |].
  destruct Hinv as (_ & _ & _ & _ & _ & _ & Hend & _).
  rewrite Hend, Hsv. by rewrite Hp'.
Qed.

Lemma total_burst_left_after n procs :
  0 <= n -> Forall (fun p => 0 <= BurstDuration p) procs ->
  0 <= total_burst (left_after n <$> procs) <= total_burst procs /\
  (Forall (fun p => BurstDuration p <= RR.QuantumTime * n) procs ->
   Forall (fun q => BurstDuration q = 0) (left_after n <$> procs) /\
   total_burst (left_after n <$> procs) = 0).
Proof.
  intros Hn Hnn. unfold total_burst, total, RR.QuantumTime.
  induction Hnn as [|p procs Hp _ IH]; csimpl; unfold RR.QuantumTime in *.
  - split; [lia|]. intros _. split; [constructor | done].
  - destruct IH as [IH1 IH2]. rewrite decide_True by done. split; [lia|].
    intros Hle. pose proof (Forall_inv Hle) as Hp3. simpl in Hp3.
    destruct (IH2 (Forall_inv_tail Hle)) as [IHa IHb].
    split; [constructor; [simpl; unfold RR.QuantumTime;
                          rewrite decide_True by done; lia | done] | lia].
Qed.

(** X4: round-robin serves every process at most a thousand quanta: its
    thousand passes go through without a panic, and at the end of the loop
    (before the output calls) a process of burst [b >= 0] is left in the
    table with [max 0 (b - 3000)], and every other field, and every burst
    below zero, is as it was. *)
Theorem RR_burst_left (procs : list Process) :
  Forall (fun p => BurstDuration p <= Int64.max_signed) procs ->
  exists st, RR.RRSchedule procs = Some st /\
             RR.processes st = left_after 1000 <$> procs.
Proof.
  intros Hmax.
  destruct (RRSchedule_account procs Hmax) as (st & Hrun & _ & Hp & _).
  by exists st.
Qed.

Lemma RR_burst_left_witness :
  exists st, RR.RRSchedule [mkProcess 1 4 7 0; mkProcess 2 0 3001 5] = Some st /\
             RR.processes st
             = left_after 1000 <$> [mkProcess 1 4 7 0; mkProcess 2 0 3001 5].
Proof.
  apply (RR_burst_left [mkProcess 1 4 7 0; mkProcess 2 0 3001 5]).
  repeat constructor; simpl; unfold Int64.max_signed; lia.
Defined.

(** X5: when no burst is negative and their sum is a 64-bit value, the
    Gantt sequence of round-robin ends at the work it served: the bursts of
    the input minus the bursts left in the table; with no burst above 3000
    it ends at the sum of the bursts, and every burst in the table is 0. *)
Theorem RR_gantt_ends_at_work_served (procs : list Process) :
  Forall (fun p => 0 <= BurstDuration p) procs ->
  total_burst procs <= Int64.max_signed ->
  exists st, RR.RRSchedule procs = Some st /\
    chain_end 0 (RR.gantt st) = total_burst procs - total_burst (RR.processes st) /\
    (Forall (fun p => BurstDuration p <= 3000) procs ->
     chain_end 0 (RR.gantt st) = total_burst procs /\
     Forall (fun q => BurstDuration q = 0) (RR.processes st)).
Proof.
  intros Hnn Hmax.
  assert (Hb : Forall (fun p => BurstDuration p <= Int64.max_signed) procs).
  { apply Forall_lookup_2. intros i p Hp.
    assert (BurstDuration p <= total_burst procs); [|lia].
    unfold total_burst. apply (total_lookup_le _ i).
    - intros k x Hx. rewrite list_lookup_fmap in Hx.
      destruct (procs !! k) as [q|] eqn:Hq; [|done]. simpl in Hx. injection Hx as <-.
      apply (Forall_lookup_1 _ _ _ _ Hnn Hq).
    - by rewrite list_lookup_fmap, Hp. }
  destruct (RRSchedule_account procs Hb) as (st & Hrun & _ & Hp & Hend).
  destruct (total_burst_left_after 1000 procs) as [Hle Hzero]; [lia | done |].
  exists st. split; [done|]. rewrite Hp, Hend.
  assert (Hplain : Int64.wrap (total_burst procs - total_burst (left_after 1000 <$> procs))
                   = total_burst procs - total_burst (left_after 1000 <$> procs)).
  { apply wrap_small.
    unfold Int64.in_range, Int64.min_signed, Int64.max_signed in *. lia. }
  rewrite Hplain. split; [done|].
  intros H3000. destruct Hzero as [Hz1 Hz2]; [done|]. split; [lia | done].
Qed.

Lemma RR_gantt_ends_at_work_served_witness :
  exists st, RR.RRSchedule fcfs_example = Some st /\
    chain_end 0 (RR.gantt st)
    = total_burst fcfs_example - total_burst (RR.processes st) /\
    (Forall (fun p => BurstDuration p <= 3000) fcfs_example ->
     chain_end 0 (RR.gantt st) = total_burst fcfs_example /\
     Forall (fun q => BurstDuration q = 0) (RR.processes st)).
Proof.
  apply (RR_gantt_ends_at_work_served fcfs_example).
  - repeat constructor; simpl; lia.
  - vm_compute. discriminate.
Defined.

(** ** Schedulers run one after the other on one table *)

Lemma RR_visit_spent st i :
  Forall (fun q => BurstDuration q <= 0) (RR.processes st) ->
  (i < length (RR.processes st))%nat -> RR.visit i st = Some st.
Proof.
  intros Hall Hi.
  destruct (lookup_lt_is_Some_2 _ i Hi) as [q Hq].
  pose proof (Forall_lookup_1 _ _ _ _ Hall Hq) as Hb. simpl in Hb.
  unfold RR.visit, RR.QuantumTime. rewrite Hq. simpl.
  rewrite decide_False by lia. by rewrite decide_False by lia.
Qed.

Lemma RR_passes_spent n st :
  Forall (fun q => BurstDuration q <= 0) (RR.processes st) ->
  RR.passes n st = Some st.
Proof.
  intros Hall. induction n as [|n IH]; simpl; [done|].
  assert (Hpass : RR.pass st = Some st).
  { unfold RR.pass.
    destruct (for_range_inv RR.visit (fun _ s => s = st)
                (length (RR.processes st)) 0 st) as (s & -> & ->); [done | | done].
    intros j s [_ Hj] ->. exists st. split; [|done].
    apply RR_visit_spent; [done | simpl in Hj; lia]. }
  rewrite Hpass. simpl. apply IH.
Qed.

Lemma service_so_far_spent procs i :
  Forall (fun q => BurstDuration q = 0) procs -> service_so_far procs i = 0.
Proof.
  intros Hall. induction i as [|i IH]; [done|].
  destruct (procs !! i) as [p|] eqn:Hp.
  - rewrite (service_so_far_S _ _ _ Hp), IH.
    by rewrite (Forall_lookup_1 _ _ _ _ Hall Hp).
  - apply lookup_ge_None in Hp. unfold service_so_far in *.
    rewrite !take_ge in * by lia. done.
Qed.

(** X6: round-robin spends the table it is given.  On a table of bursts
    between 0 and 3000, a second round-robin run over the table that the
    first one leaves does nothing at all (no slice, no row), and the two
    tick-driven schedulers finish on it at once, with an empty Gantt
    sequence and no row. *)
Theorem RR_spends_table (procs : list Process) :
  Forall (fun p => 0 <= BurstDuration p <= 3000) procs ->
  exists st, RR.RRSchedule procs = Some st /\
    RR.RRSchedule (RR.processes st) = Some (RR.init (RR.processes st)) /\
    exists st0, SJF.init (RR.processes st) = Some st0 /\
      SJF.gantt st0 = [] /\ produced (SJF.schedule st0) = [] /\
      forall fuel,
        SJF.SJFSchedule fuel (RR.processes st) = (Finished, st0) /\
        SJFPriority.SJFPrioritySchedule fuel (RR.processes st) = (Finished, st0).
Proof.
  intros Hb.
  assert (Hnn : Forall (fun p => 0 <= BurstDuration p) procs).
  { apply Forall_forall. intros p Hin. rewrite Forall_forall in Hb.
    specialize (Hb p Hin). simpl in Hb. lia. }
  assert (Hmax : Forall (fun p => BurstDuration p <= Int64.max_signed) procs).
  { apply Forall_forall. intros p Hin. rewrite Forall_forall in Hb.
    specialize (Hb p Hin). simpl in Hb. unfold Int64.max_signed. lia. }
  destruct (RRSchedule_account procs Hmax) as (st & Hrun & _ & Hp & _).
  destruct (total_burst_left_after 1000 procs) as [_ Hzero]; [lia | done |].
  destruct Hzero as [Hz _].
  { apply Forall_forall. intros p Hin. rewrite Forall_forall in Hb.
    specialize (Hb p Hin). simpl in Hb. unfold RR.QuantumTime. lia. }
  rewrite <- Hp in Hz.
  exists st. split; [done|]. split.
  - apply RR_passes_spent. simpl.
    apply Forall_forall. intros q Hin. rewrite Forall_forall in Hz.
    rewrite (Hz q Hin). done.
  - eexists. split; [apply SJF_init_spec|]. simpl.
    rewrite (service_so_far_spent _ _ Hz).
    split; [done|]. split.
    { unfold produced. generalize (length (RR.processes st)).
      intros n. by induction n. }
    intros fuel. unfold SJF.SJFSchedule, SJFPriority.SJFPrioritySchedule, SJF.run.
    rewrite SJF_init_spec, (service_so_far_spent _ _ Hz).
    split; by destruct fuel.
Qed.

Lemma RR_spends_table_witness :
  exists st, RR.RRSchedule fcfs_example = Some st /\
    RR.RRSchedule (RR.processes st) = Some (RR.init (RR.processes st)) /\
    exists st0, SJF.init (RR.processes st) = Some st0 /\
      SJF.gantt st0 = [] /\ produced (SJF.schedule st0) = [] /\
      forall fuel,
        SJF.SJFSchedule fuel (RR.processes st) = (Finished, st0) /\
        SJFPriority.SJFPrioritySchedule fuel (RR.processes st) = (Finished, st0).
Proof.
  apply (RR_spends_table fcfs_example).
  repeat constructor; simpl; lia.
Defined.

(** ** First-come, first-serve back to back *)

(** A sequence whose [j]-th slice runs from [f j] to [f (j + 1)] is
    contiguous from [f 0] and ends at [f] of its length. *)
Lemma contiguous_from_lookup (f : nat -> Z) (g : list TimeSlice) :
  (forall j s, g !! j = Some s -> Start s = f j /\ Stop s = f (S j)) ->
  contiguous_from (f 0%nat) g /\ chain_end (f 0%nat) g = f (length g).
Proof.
  revert f. induction g as [|s g IH]; intros f H; simpl; [done|].
  destruct (H 0%nat s eq_refl) as [Hs He].
  destruct (IH (fun j => f (S j))) as [Hc Hend].
  { intros j s' Hs'. apply (H (S j) s' Hs'). }
  simpl in *. rewrite He. done.
Qed.

(** X7: first-come, first-serve never leaves the processor idle and never
    looks at whether a process has arrived.  When the first process arrives
    at 0 or later and every other one after 0 (and nothing overflows), the
    Gantt sequence is contiguous from 0 and ends at the sum of the bursts,
    process [i] completes at the sum of the bursts up to and including its
    own, and its reported waiting time is the sum of the bursts ahead of it
    minus its arrival time, which is negative when it arrives later than
    that. *)
Theorem FCFS_back_to_back (procs : list Process) :
  arrivals_set_wait procs -> nonneg_table procs ->
  Forall (fun p => ArrivalTime p <= Int64.max_signed) procs ->
  total_burst procs <= Int64.max_signed ->
  exists st, FCFS.FCFSSchedule procs = Some st /\
    contiguous_from 0 (FCFS.gantt st) /\
    chain_end 0 (FCFS.gantt st) = total_burst procs /\
    forall i p, procs !! i = Some p ->
      exists r, FCFS.schedule st !! i = Some (Some r) /\
        rowWait r = total_burst (take i procs) - ArrivalTime p /\
        rowExit r = total_burst (take (S i) procs).
Proof.
  intros Harr Hnn Hamax Hmax.
  destruct (FCFSSchedule_inv procs) as (st & Hrun & Hinv).
  destruct Hinv as (_ & _ & Hlg & _ & _ & _ & Hlaw).
  assert (Hfacts : forall i p, procs !! i = Some p ->
    exists r g, FCFS.schedule st !! i = Some (Some r) /\ FCFS.gantt st !! i = Some g /\
      rowWait r = total_burst (take i procs) - ArrivalTime p /\
      Start g = total_burst (take i procs) /\
      Stop g = total_burst (take (S i) procs) /\
      rowExit r = total_burst (take (S i) procs)).
  { intros i p Hp.
    destruct (Hlaw i p) as (r & g & Hr & Hg & Hpos & Hzero & _ & Hstart & Hexit & Hstop);
      [by eapply lookup_lt_Some | done |].
    exists r, g. split; [done|]. split; [done|].
    rewrite (service_so_far_plain procs i Hnn Hmax) in Hpos.
    rewrite (service_so_far_plain procs (S i) Hnn Hmax) in Hstop.
    destruct (nonneg_table_lookup _ _ _ Hnn Hp) as [Ha Hb].
    pose proof (Forall_lookup_1 _ _ _ _ Hamax Hp) as Ha'. simpl in Ha'.
    pose proof (total_burst_take_le procs i Hnn) as Hti.
    pose proof (total_burst_take_le procs (S i) Hnn) as HtS.
    assert (HS : total_burst (take (S i) procs)
                 = total_burst (take i procs) + BurstDuration p).
    { rewrite (take_S_r _ _ _ Hp). unfold total_burst.
      rewrite fmap_app, total_app. unfold total. simpl. lia. }
    unfold Int64.max_signed in *.
    assert (Hwait : rowWait r = total_burst (take i procs) - ArrivalTime p).
    { destruct (decide (ArrivalTime p > 0)) as [Hgt|Hle].
      - rewrite (Hpos Hgt). unfold Int64.sub. apply wrap_small.
        unfold Int64.in_range, Int64.min_signed, Int64.max_signed. lia.
      - assert (Ha0 : ArrivalTime p = 0) by lia.
        destruct i as [|i].
        + rewrite (Hzero Ha0), Ha0. simpl. unfold total_burst, total. simpl. lia.
        + destruct procs as [|p0 rest]; [done|]. destruct Harr as [_ Hrest].
          simpl in Hp. pose proof (Forall_lookup_1 _ _ _ _ Hrest Hp) as Hgt.
          simpl in Hgt. lia. }
    assert (Hst : Start g = total_burst (take i procs)).
    { rewrite Hstart, Hwait. unfold Int64.add. rewrite wrap_small
        by (unfold Int64.in_range, Int64.min_signed, Int64.max_signed; lia). lia. }
    split; [done|]. split; [done|]. split; [done|].
    rewrite Hexit, Hst, HS. unfold Int64.add. apply wrap_small.
    unfold Int64.in_range, Int64.min_signed, Int64.max_signed. lia. }
  exists st. split; [done|].
  destruct (contiguous_from_lookup (fun j => total_burst (take j procs)) (FCFS.gantt st))
    as [Hc Hend].
  { intros j s Hs. pose proof (lookup_lt_Some _ _ _ Hs) as Hj. rewrite Hlg in Hj.
    destruct (lookup_lt_is_Some_2 procs j Hj) as [p Hp].
    destruct (Hfacts j p Hp) as (r & g & _ & Hg & _ & ? & ? & _).
    by assert (g = s) as -> by congruence. }
  simpl in Hc, Hend. rewrite Hlg, firstn_all in Hend.
  split; [done|]. split; [done|].
  intros i p Hp. destruct (Hfacts i p Hp) as (r & g & ? & _ & ? & _ & _ & ?).
  by exists r.
Qed.

Lemma FCFS_back_to_back_witness :
  exists st, FCFS.FCFSSchedule [mkProcess 1 0 5 0; mkProcess 2 9 3 0] = Some st /\
    contiguous_from 0 (FCFS.gantt st) /\
    chain_end 0 (FCFS.gantt st) = total_burst [mkProcess 1 0 5 0; mkProcess 2 9 3 0] /\
    forall i p, [mkProcess 1 0 5 0; mkProcess 2 9 3 0] !! i = Some p ->
      exists r, FCFS.schedule st !! i = Some (Some r) /\
        rowWait r
        = total_burst (take i [mkProcess 1 0 5 0; mkProcess 2 9 3 0]) - ArrivalTime p /\
        rowExit r = total_burst (take (S i) [mkProcess 1 0 5 0; mkProcess 2 9 3 0]).
Proof.
  apply (FCFS_back_to_back [mkProcess 1 0 5 0; mkProcess 2 9 3 0]).
  - simpl. split; [lia|]. repeat constructor.
  - repeat constructor; simpl; lia.
  - repeat constructor; simpl; unfold Int64.max_signed; lia.
  - vm_compute. discriminate.
Defined.

(** ** Loading and printing *)

Lemma load_row_loads (ParseInt : string -> option Z) (row : list string) (p : Process) :
  Loader.load_row ParseInt row = Loader.Loaded p <-> row_loads ParseInt row p.
Proof.
  unfold Loader.load_row, Loader.field, Loader.mustStrToInt, row_loads. split.
  - destruct row as [|s0 row]; [done|]. simpl.
    destruct (ParseInt s0) as [id|] eqn:E0; [|done]. simpl.
    destruct row as [|s1 row]; [done|]. simpl.
    destruct (ParseInt s1) as [burst|] eqn:E1; [|done]. simpl.
    destruct row as [|s2 rest]; [done|]. simpl.
    destruct (ParseInt s2) as [arrival|] eqn:E2; [|done]. simpl.
    destruct rest as [|s3 [|s4 rest]]; simpl.
    + intros [= <-]. by exists s0, s1, s2, [].
    + destruct (ParseInt s3) as [priority|] eqn:E3; [|done]. simpl.
      intros [= <-]. by exists s0, s1, s2, [s3].
    + intros [= <-]. by exists s0, s1, s2, (s3 :: s4 :: rest).
  - intros (s0 & s1 & s2 & rest & -> & E0 & E1 & E2 & Hp). simpl.
    rewrite E0, E1, E2. simpl.
    destruct p as [id arrival burst priority]. simpl in *.
    destruct rest as [|s3 [|s4 rest]]; simpl.
    + by rewrite Hp.
    + by rewrite Hp.
    + by rewrite Hp.
Qed.

Lemma load_rows_loads (ParseInt : string -> option Z) (rows : list (list string)) :
  forall ps, Loader.load_rows ParseInt rows = Loader.Loaded ps <->
             Forall2 (row_loads ParseInt) rows ps.
Proof.
  induction rows as [|row rows IH]; intros ps; simpl.
  - split; [intros [= <-]; constructor | by intros ->%Forall2_nil_inv_l].
  - split.
    + destruct (Loader.load_row ParseInt row) as [p| | |] eqn:Hrow; [|done..]. simpl.
      destruct (Loader.load_rows ParseInt rows) as [ps'| | |] eqn:Hrows; [|done..]. simpl.
      intros [= <-]. constructor; [by apply load_row_loads | by apply IH].
    + intros H. apply Forall2_cons_inv_l in H as (p & ps' & Hp & Hps & ->).
      apply load_row_loads in Hp. apply IH in Hps. by rewrite Hp, Hps.
Qed.

(** X8: [loadProcesses] returns a table exactly when the reader returns
    records that all load: each has at least three fields, the first three
    parse and give ProcessID, BurstDuration and ArrivalTime in that order,
    and Priority is the parsed fourth field of a record of exactly four
    fields and 0 for any other record (further fields are never parsed).
    It returns the reader's error exactly when the reader fails; every
    other input ends the program (exit or panic). *)
Theorem loadProcesses_loads (ParseInt : string -> option Z) (Reader : Type)
    (ReadAll : Reader -> option (list (list string))) (r : Reader) :
  (forall ps,
     Loader.loadProcesses ParseInt Reader ReadAll r = Loader.Loaded ps <->
     exists rows, ReadAll r = Some rows /\ Forall2 (row_loads ParseInt) rows ps) /\
  (Loader.loadProcesses ParseInt Reader ReadAll r = Loader.ReadError <->
   ReadAll r = None).
Proof.
  unfold Loader.loadProcesses. split.
  - intros ps. destruct (ReadAll r) as [rows|].
    + rewrite load_rows_loads. split; [by exists rows | by intros (? & [= <-] & ?)].
    + split; [done | by intros (? & ? & _)].
  - destruct (ReadAll r) as [rows|]; [|done]. split; [|done].
    assert (Hrow : forall row, Loader.load_row ParseInt row <> Loader.ReadError).
    { intros row. unfold Loader.load_row, Loader.field, Loader.mustStrToInt.
      destruct row as [|s0 [|s1 [|s2 [|s3 [|s4 rest]]]]]; simpl;
        repeat (match goal with
                | |- context [ParseInt ?s] => destruct (ParseInt s); simpl
                end); done. }
    assert (Hrows : Loader.load_rows ParseInt rows <> Loader.ReadError).
    { induction rows as [|row rows IH]; simpl; [done|].
      specialize (Hrow row).
      destruct (Loader.load_row ParseInt row); simpl; [|done..].
      destruct (Loader.load_rows ParseInt rows); simpl; done. }
    done.
Qed.

Lemma quot_padding_negative (n : nat) :
  Z.quot (8 - Z.of_nat n) 2 < 0 <-> (10 <= n)%nat.
Proof.
  split.
  - intros H. destruct (decide (10 <= n)%nat) as [|Hn]; [done|]. exfalso.
    assert (0 <= Z.quot (8 - Z.of_nat n) 2); [|lia].
    do 10 (destruct n as [|n]; [by vm_compute|]). lia.
  - intros Hn. replace (8 - Z.of_nat n) with (- (Z.of_nat n - 8)) by lia.
    rewrite Z.quot_opp_l by lia. rewrite Z.quot_div_nonneg by lia.
    assert (1 <= (Z.of_nat n - 8) / 2); [|lia].
    apply Z.div_le_lower_bound; lia.
Qed.

Lemma gantt_cell_panics (Sprint : Z -> string) (s : TimeSlice) :
  Output.gantt_cell Sprint s = None <-> (10 <= String.length (Sprint (PID s)))%nat.
Proof.
  unfold Output.gantt_cell, Output.Repeat. rewrite <- quot_padding_negative.
  destruct (decide (Z.quot (8 - Z.of_nat (String.length (Sprint (PID s)))) 2 < 0));
    simpl; split; (done || lia).
Qed.

(** X9: [outputGantt] panics exactly when the Gantt sequence holds a
    process ID that prints as ten characters or more (the padding
    [(8 - len) / 2] is then negative; at nine characters Go's division
    rounds it to 0); otherwise it returns. *)
Theorem outputGantt_panics (Sprint : Z -> string) (g : list TimeSlice) :
  Output.outputGantt Sprint g = None <->
  Exists (fun s => (10 <= String.length (Sprint (PID s)))%nat) g.
Proof.
  unfold Output.outputGantt.
  assert (Hcells : Output.gantt_cells Sprint g = None <->
                   Exists (fun s => (10 <= String.length (Sprint (PID s)))%nat) g).
  { induction g as [|s g IH]; simpl.
    - split; [done | by intros ?%Exists_nil].
    - rewrite Exists_cons, <- IH, <- gantt_cell_panics.
      destruct (Output.gantt_cell Sprint s); simpl; [|split; auto].
      destruct (Output.gantt_cells Sprint g); simpl.
      + split; [done | by intros [?|?]].
      + split; auto. }
  rewrite <- Hcells. by destruct (Output.gantt_cells Sprint g).
Qed.

(** ** The empty table *)

(** X10: on the empty table none of the schedulers does anything or
    panics: FCFS and round-robin return their initial state, and the two
    tick-driven schedulers finish without a tick, whatever the fuel. *)
Theorem empty_table_schedules :
  FCFS.FCFSSchedule [] = Some (FCFS.init []) /\
  RR.RRSchedule [] = Some (RR.init []) /\
  forall fuel,
    SJF.SJFSchedule fuel [] = (Finished, SJF.start []) /\
    SJFPriority.SJFPrioritySchedule fuel [] = (Finished, SJF.start []).
Proof.
  split; [done|]. split.
  - apply RR_passes_spent. constructor.
  - intros fuel. split; by destruct fuel.
Qed.

(** ** The tick loop when every process is there from the start *)

(** The bookkeeping after the tick leaves the Gantt variables alone. *)
Lemma account_frame sji st st' :
  SJF.account sji st = Some st' ->
  SJF.gantt st' = SJF.gantt st /\
  SJF.lastGanttIndex st' = SJF.lastGanttIndex st /\
  SJF.lastGanttStartTime st' = SJF.lastGanttStartTime st.
Proof.
  unfold SJF.account. intros H.
  repeat case_decide; simplify_option_eq; done.
Qed.

(** The bookkeeping after the tick never panics for an eligible process. *)
Lemma account_eligible (j : nat) st :
  length (SJF.RemainingBurst st) = length (SJF.processes st) ->
  length (SJF.schedule st) = length (SJF.processes st) ->
  SJF.eligible st j ->
  is_Some (SJF.account (Z.of_nat j) st).
Proof.
  intros Hlr Hls (r & p & Hr & Hp & _).
  pose proof (lookup_lt_Some _ _ _ Hr) as Hj.
  unfold SJF.account. rewrite decide_False by lia.
  rewrite (lookupZ_of_nat (SJF.RemainingBurst st)), Hr. simpl.
  rewrite storeZ_of_nat by done. simpl.
  case_decide; simpl; [|done].
  rewrite (lookupZ_of_nat (SJF.processes st)), Hp. simpl.
  rewrite storeZ_of_nat by lia. done.
Qed.







(** ** When the tick loop panics *)

Lemma close_slice_idx sji st st1 :
  SJF.close_slice sji st = Some st1 ->
  SJF.lastGanttIndex st1 = sji \/ SJF.lastGanttIndex st1 = SJF.lastGanttIndex st.
Proof.
  unfold SJF.close_slice. intros H.
  repeat case_decide; simplify_option_eq; auto.
Qed.

Lemma sjf_idx_body select st st' :
  selects_eligible select ->
  length (SJF.RemainingBurst st) = length (SJF.processes st) ->
  sjf_idx_inv st -> SJF.body select st = Some st' -> sjf_idx_inv st'.
Proof.
  intros Hsel Hlen Hidx. unfold SJF.body.
  destruct (Hsel st Hlen) as (sji & -> & Hcase). simpl.
  destruct (SJF.close_slice sji st) as [st1|] eqn:Hc; [|done]. simpl. intros Hacc.
  destruct (account_frame _ _ _ Hacc) as (_ & Hl' & _).
  assert (Hp' : SJF.processes st' = SJF.processes st).
  { apply close_slice_frame in Hc as (Hp1 & _).
    unfold SJF.account in Hacc. repeat case_decide; simplify_option_eq; done. }
  unfold sjf_idx_inv. rewrite Hl', Hp'.
  destruct (close_slice_idx _ _ _ Hc) as [->| ->]; [|done].
  destruct Hcase as [->|(j & -> & (r & p & _ & Hp & _))]; [by left|].
  right. exists j. split; [by eapply lookup_lt_Some | done].
Qed.

(** A tick panics exactly when it is the last one and no slice is open. *)
Lemma sjf_body_panics select procs st :
  selects_eligible select -> sjf_work_inv procs st -> sjf_idx_inv st ->
  SJF.tick st + total_burst procs < Int64.max_signed ->
  SJF.body select st = None <->
  SJF.tick st = SJF.totalBurstTime st - 1 /\ SJF.lastGanttIndex st = -1.
Proof.
  intros Hsel Hwork Hidx Hbound.
  pose proof (fun i x => sjf_work_inv_nonneg procs st i x Hwork) as Hrnn.
  pose proof (total_nonneg _ Hrnn) as Htnn.
  destruct Hwork as (Hp & Hlr & Hls & Ht & Htot & Hle & _).
  unfold Int64.max_signed in Hbound.
  assert (Hfinal : Int64.sub (SJF.totalBurstTime st) 1 = SJF.totalBurstTime st - 1).
  { unfold Int64.sub. apply wrap_small.
    unfold Int64.in_range, Int64.min_signed, Int64.max_signed. lia. }
  destruct (Hsel st) as (sji & Hs & Hcase); [congruence|].
  unfold SJF.body. rewrite Hs. simpl. split.
  - destruct (SJF.close_slice sji st) as [st1|] eqn:Hc; simpl.
    + (* the bookkeeping after the tick cannot panic *)
      pose proof (close_slice_frame _ _ _ Hc) as (Hp1 & Hr1 & Ht1 & _ & Hs1).
      destruct Hcase as [->|(j & -> & Hej)]; [done|].
      destruct (account_eligible j st1) as [st' ->]; [| | | done].
      * by rewrite Hr1, Hp1, Hlr, Hp.
      * by rewrite Hs1, Hp1, Hls, Hp.
      * destruct Hej as (r & p & ? & ? & ? & ?). exists r, p.
        by rewrite Hr1, Hp1, Ht1.
    + intros _. unfold SJF.close_slice in Hc. rewrite Hfinal in Hc.
      destruct (decide (SJF.tick st = SJF.totalBurstTime st - 1)) as [Hfin|Hfin].
      * split; [done|]. destruct Hidx as [?|(j' & Hj' & Hl)]; [done|]. exfalso.
        rewrite decide_True in Hc by auto. rewrite Hl, lookupZ_of_nat in Hc.
        destruct (lookup_lt_is_Some_2 _ j' Hj') as [p' Hp']. by rewrite Hp' in Hc.
      * exfalso. case_decide; [|done].
        destruct (decide (SJF.lastGanttIndex st <> -1)) as [Hne|Heq]; [|done].
        destruct Hidx as [?|(j' & Hj' & Hl)]; [done|].
        rewrite Hl, lookupZ_of_nat in Hc.
        destruct (lookup_lt_is_Some_2 _ j' Hj') as [p' Hp']. by rewrite Hp' in Hc.
  - intros [Hfin Hl]. rewrite close_slice_final_tick_panics; [done | by rewrite Hfinal | done].
Qed.

Lemma sjf_panic_loop select procs fuel :
  nonneg_table procs -> selects_eligible select ->
  forall st, sjf_work_inv procs st -> sjf_idx_inv st ->
    SJF.tick st + Z.of_nat fuel + total_burst procs <= Int64.max_signed ->
    panics_at_last_unit (SJF.loop select fuel st).
Proof.
  intros Hnn Hsel. unfold panics_at_last_unit.
  induction fuel as [|fuel IH]; intros st Hwork Hidx Hbound; simpl.
  - by case_decide.
  - case_decide as Hc; [|done].
    destruct (SJF.body select st) as [st'|] eqn:Hb.
    + destruct (sjf_work_body select procs st st') as (Hwork' & Ht' & _);
        [done | done | done | lia | done |].
      apply IH; [done | | lia].
      apply (sjf_idx_body select st); [done | | done | done].
      destruct Hwork as (-> & -> & _). done.
    + simpl. intros _.
      apply (sjf_body_panics select procs st Hsel Hwork Hidx) in Hb as [Hfin Hl]; [|lia].
      destruct Hwork as (_ & _ & _ & _ & Htot & _). split_and!; [lia | done | done].
Qed.

Lemma sjf_panic_run select procs fuel :
  nonneg_table procs -> selects_eligible select ->
  total_burst procs + Z.of_nat fuel <= Int64.max_signed ->
  panics_at_last_unit (SJF.run select fuel procs).
Proof.
  intros Hnn Hsel Hbound. unfold SJF.run. rewrite SJF_init_spec.
  apply (sjf_panic_loop select procs); [done | done | | | simpl; lia].
  - apply sjf_work_inv_init; [done | lia | apply SJF_init_spec].
  - by left.
Qed.

(** X12: on a table of non-negative arrivals and bursts, and as long as the
    clock cannot overflow, the only panic inside the tick loop of the
    tick-driven schedulers is the one of the last tick: a loop that stops
    by a panic stops with exactly one unit of work left,
    [tick = totalBurstTime - 1], and no slice open
    ([lastGanttIndex = -1]).  (The output calls that follow the loop are
    not part of the statement; [outputGantt] has a panic of its own.) *)
Theorem SJF_panics_only_at_last_unit (procs : list Process) (fuel : nat) :
  nonneg_table procs ->
  total_burst procs + Z.of_nat fuel <= Int64.max_signed ->
  panics_at_last_unit (SJF.SJFSchedule fuel procs) /\
  panics_at_last_unit (SJFPriority.SJFPrioritySchedule fuel procs).
Proof.
  intros Hnn Hbound. split.
  - apply sjf_panic_run; auto using SJF_select_eligible.
  - apply sjf_panic_run; auto using SJFPriority_select_eligible.
Qed.

Lemma SJF_panics_only_at_last_unit_witness :
  panics_at_last_unit (SJF.SJFSchedule 20 [mkProcess 1 0 2 0; mkProcess 2 10 1 0]) /\
  panics_at_last_unit
    (SJFPriority.SJFPrioritySchedule 20 [mkProcess 1 0 2 0; mkProcess 2 10 1 0]).
Proof.
  apply (SJF_panics_only_at_last_unit [mkProcess 1 0 2 0; mkProcess 2 10 1 0] 20).
  - repeat constructor; simpl; lia.
  - vm_compute. discriminate.
Defined.

(** ** What round-robin looks at *)

(** Two runs of a [range] loop that a relation ties together step by
    step. *)
Lemma for_range_rel {St} (body : nat -> St -> option St)
    (R : St -> St -> Prop) (n : nat) :
  forall (i : nat) (s s' : St),
    R s s' ->
    (forall j s s', (i <= j < i + n)%nat -> R s s' ->
       exists t t', body j s = Some t /\ body j s' = Some t' /\ R t t') ->
    exists t t', for_range body i n s = Some t /\ for_range body i n s' = Some t' /\
                 R t t'.
Proof.
  induction n as [|n IH]; intros i s s' HR Hstep; simpl.
  - by exists s, s'.
  - destruct (Hstep i s s') as (t & t' & -> & -> & HR1); [lia | done |]. simpl.
    apply IH; [done|]. intros j u u' Hj. apply Hstep. lia.
Qed.

Lemma same_work_consume q q' :
  same_work q q' -> same_work (consume_quantum q) (consume_quantum q').
Proof. intros [Hid Hb]. unfold same_work, consume_quantum. simpl. by rewrite Hb. Qed.

Lemma same_work_slices q q' t :
  same_work q q' -> visit_slices q t = visit_slices q' t.
Proof. intros [Hid Hb]. unfold visit_slices. by rewrite Hid, Hb. Qed.

Lemma rr_same_visit procs procs' i s s' :
  (i < length procs)%nat -> rr_same_run procs procs' s s' ->
  exists t t', RR.visit i s = Some t /\ RR.visit i s' = Some t' /\
               rr_same_run procs procs' t t'.
Proof.
  intros Hi (Hinv & Hinv' & Hsame & Hsvc & Hg).
  assert (Hlen : length procs' = length procs).
  { destruct Hinv as (Hl & _). destruct Hinv' as (Hl' & _).
    pose proof (Forall2_length _ _ _ Hsame). lia. }
  destruct (rr_inv_visit procs i s Hi Hinv) as (t & q & Hv & Ht & Hq & Hgt).
  destruct (rr_inv_visit procs' i s') as (t' & q' & Hv' & Ht' & Hq' & Hgt'); [lia | done |].
  assert (Hr : Int64.in_range (RR.serviceTime s)) by apply Hinv.
  assert (Hr' : Int64.in_range (RR.serviceTime s')) by apply Hinv'.
  destruct (RR_visit_account s i q t Hr Hq Hv) as [Hpt Hst].
  destruct (RR_visit_account s' i q' t' Hr' Hq' Hv') as [Hpt' Hst'].
  pose proof (Forall2_lookup_lr _ _ _ _ _ _ Hsame Hq Hq') as Hqq.
  exists t, t'. split; [done|]. split; [done|].
  unfold rr_same_run. split_and!; [done | done | | |].
  - rewrite Hpt, Hpt'. apply Forall2_insert; [done|]. by apply same_work_consume.
  - rewrite Hst, Hst', Hsvc.
    destruct (same_work_consume q q' Hqq) as [_ ->]. destruct Hqq as [_ ->]. done.
  - rewrite Hgt, Hgt', Hg, Hsvc. f_equal. by apply same_work_slices.
Qed.

Lemma rr_same_passes procs procs' n : forall s s',
  rr_same_run procs procs' s s' ->
  exists t t', RR.passes n s = Some t /\ RR.passes n s' = Some t' /\
               rr_same_run procs procs' t t'.
Proof.
  induction n as [|n IH]; intros s s' Hrun; simpl; [by exists s, s'|].
  assert (Hl : length (RR.processes s) = length procs) by apply Hrun.
  assert (Hl' : length (RR.processes s') = length procs).
  { destruct Hrun as (_ & _ & Hsame & _).
    pose proof (Forall2_length _ _ _ Hsame). lia. }
  unfold RR.pass. rewrite Hl, Hl'.
  destruct (for_range_rel RR.visit (rr_same_run procs procs') (length procs) 0 s s')
    as (t & t' & -> & -> & Ht); [done | |].
  - intros j u u' Hj. apply rr_same_visit. lia.
  - simpl. by apply IH.
Qed.

(** X13: round-robin decides who runs from the IDs and bursts alone: two
    tables that agree on them, whatever their arrival times and priorities,
    get the same Gantt sequence. *)
Theorem RR_ignores_arrival_and_priority (procs procs' : list Process) :
  Forall2 same_work procs procs' ->
  exists st st', RR.RRSchedule procs = Some st /\
                 RR.RRSchedule procs' = Some st' /\
                 RR.gantt st = RR.gantt st'.
Proof.
  intros Hsame.
  destruct (rr_same_passes procs procs' 1000 (RR.init procs) (RR.init procs'))
    as (st & st' & Hrun & Hrun' & Hres).
  - unfold rr_same_run. split_and!; [apply rr_inv_init | apply rr_inv_init | done..].
  - exists st, st'. split; [done|]. split; [done|]. apply Hres.
Qed.

Lemma RR_ignores_arrival_and_priority_witness :
  exists st st',
    RR.RRSchedule [mkProcess 1 0 7 0; mkProcess 2 0 2 0] = Some st /\
    RR.RRSchedule [mkProcess 1 50 7 3; mkProcess 2 9 2 1] = Some st' /\
    RR.gantt st = RR.gantt st'.
Proof.
  apply (RR_ignores_arrival_and_priority
           [mkProcess 1 0 7 0; mkProcess 2 0 2 0]
           [mkProcess 1 50 7 3; mkProcess 2 9 2 1]).
  repeat constructor.
Defined.

(** ** What the scans never select *)

(** X14: on every state whose [RemainingBurst] has the length of the
    table, the scans of SJF and of SJF-Priority read no index out of range
    and return [-1] or the index of an eligible process: a process that has
    not arrived, or that has no work left, never runs. *)
Theorem scans_select_only_eligible :
  selects_eligible SJF.select /\ selects_eligible SJFPriority.select.
Proof. split; [apply SJF_select_eligible | apply SJFPriority_select_eligible]. Qed.
